(** * file-forensic-timeline: a shallow embedding of [main.py]

    The tool walks a path and prints, for every regular file it can
    inspect, one comma-separated line of timestamps, path, size, mode and
    ownership.  This development embeds the four functions of [main.py]
    ([get_file_metadata], [process_file], [process_directory], [main]) as
    programs of a small state-and-exception monad over an abstract
    operating system, and proves properties of them.

    Layout:
    - strings, paths, status records and the formatting helpers of the
      Python runtime the program calls ([stat.filemode], [str] of an
      integer, [datetime.isoformat]);
    - exceptions, the operating-system interface, and the monad;
    - the four functions of the program;
    - two instances of the interface: a finite directory tree that holds
      still, and a world of fixed answers;
    - the vocabulary of the statements and of the proofs, and concrete
      worlds for examples;
    - lemmas about runs of the program, then the theorems: per-item
      failures, serialization, directory failures, write failures,
      validation, the output handle, the verbose flag, traversal of a
      tree, and the columns of a line. *)

From Stdlib Require Import List String Ascii ZArith Lia Bool Arith PeanoNat.
From Stdlib Require Import DecimalString Permutation.
Import ListNotations.
Open Scope string_scope.

Set Implicit Arguments.

(* ------------------------------------------------------------------ *)
(** ** Strings *)

(** [sep.join(parts)] *)
Fixpoint join (sep : string) (parts : list string) : string :=
  match parts with
  | [] => ""
  | [x] => x
  | x :: rest => x ++ sep ++ join sep rest
  end.

(** [s.split(c)] for a one-character separator: the empty string splits
    into one empty field. *)
Fixpoint split_on (c : ascii) (s : string) : list string :=
  match s with
  | EmptyString => [EmptyString]
  | String a s' =>
      if Ascii.eqb a c then EmptyString :: split_on c s'
      else match split_on c s' with
           | [] => [String a EmptyString]
           | h :: t => String a h :: t
           end
  end.

(** [c in s] *)
Fixpoint contains_char (c : ascii) (s : string) : bool :=
  match s with
  | EmptyString => false
  | String a s' => Ascii.eqb a c || contains_char c s'
  end.

Definition comma : ascii := ","%char.
Definition newline : string := String (ascii_of_nat 10) EmptyString.

(** The columns of an output line, as a reader of the CSV-like stream sees
    them: [line.split(",")]. *)
Definition columns (line : string) : list string := split_on comma line.

(* ------------------------------------------------------------------ *)
(** ** Paths

    A [pathlib.Path] after normalisation: whether it is anchored at the
    root, and its components. *)

Record Path : Type := mkPath { absolute : bool; parts : list string }.

(** [str(p)] *)
Definition path_str (p : Path) : string :=
  if absolute p then "/" ++ join "/" (parts p)
  else match parts p with
       | [] => "."
       | _ => join "/" (parts p)
       end.

(** [p.name]: the final component, empty when there is none. *)
Definition path_name (p : Path) : string := last (parts p) "".

(** [p / name] *)
Definition child (p : Path) (name : string) : Path :=
  mkPath (absolute p) (parts p ++ [name]).

(** [pathlib.Path(s)] on a POSIX system: split at slashes, drop empty and
    dot components. *)
Definition keep_part (s : string) : bool :=
  negb (String.eqb s "" || String.eqb s ".").

Definition Path_of_string (s : string) : Path :=
  mkPath (match s with String "/"%char _ => true | _ => false end)
         (filter keep_part (split_on "/"%char s)).

(* ------------------------------------------------------------------ *)
(** ** File status

    [os.stat_result], restricted to the fields the program reads.  The
    three times are kept abstract (the platform reports them as epoch
    seconds); [fromtimestamp] below turns them into calendar values. *)

Section StatResult.
Variable timestamp : Type.

Record stat_result : Type := mkStat {
  st_mode : Z;
  st_size : Z;
  st_uid : Z;
  st_gid : Z;
  st_mtime : timestamp;
  st_atime : timestamp;
  st_ctime : timestamp
}.
End StatResult.

(** Mode bits, from Python's [stat] module. *)
Module Mode.
Definition S_IFMT   : Z := 61440.  (* 0o170000 *)
Definition S_IFSOCK : Z := 49152.  (* 0o140000 *)
Definition S_IFLNK  : Z := 40960.  (* 0o120000 *)
Definition S_IFREG  : Z := 32768.  (* 0o100000 *)
Definition S_IFBLK  : Z := 24576.  (* 0o060000 *)
Definition S_IFDIR  : Z := 16384.  (* 0o040000 *)
Definition S_IFCHR  : Z := 8192.   (* 0o020000 *)
Definition S_IFIFO  : Z := 4096.   (* 0o010000 *)
Definition S_ISUID  : Z := 2048.   (* 0o4000 *)
Definition S_ISGID  : Z := 1024.   (* 0o2000 *)
Definition S_ISVTX  : Z := 512.    (* 0o1000 *)
Definition S_IRUSR  : Z := 256.
Definition S_IWUSR  : Z := 128.
Definition S_IXUSR  : Z := 64.
Definition S_IRGRP  : Z := 32.
Definition S_IWGRP  : Z := 16.
Definition S_IXGRP  : Z := 8.
Definition S_IROTH  : Z := 4.
Definition S_IWOTH  : Z := 2.
Definition S_IXOTH  : Z := 1.

(** [stat.S_ISREG(mode)], [stat.S_ISDIR(mode)] *)
Definition S_ISREG (mode : Z) : bool := Z.eqb (Z.land mode S_IFMT) S_IFREG.
Definition S_ISDIR (mode : Z) : bool := Z.eqb (Z.land mode S_IFMT) S_IFDIR.

(** One position of the mode string: the first entry of the table whose
    bits are all set in [mode], a dash when none is. *)
Fixpoint pick (table : list (Z * ascii)) (mode : Z) : ascii :=
  match table with
  | [] => "-"%char
  | (bit, ch) :: rest =>
      if Z.eqb (Z.land mode bit) bit then ch else pick rest mode
  end.

Definition filemode_table : list (list (Z * ascii)) :=
  [ [ (S_IFLNK, "l"); (S_IFSOCK, "s"); (S_IFREG, "-"); (S_IFBLK, "b");
      (S_IFDIR, "d"); (S_IFCHR, "c"); (S_IFIFO, "p") ];
    [ (S_IRUSR, "r") ];
    [ (S_IWUSR, "w") ];
    [ (Z.lor S_IXUSR S_ISUID, "s"); (S_ISUID, "S"); (S_IXUSR, "x") ];
    [ (S_IRGRP, "r") ];
    [ (S_IWGRP, "w") ];
    [ (Z.lor S_IXGRP S_ISGID, "s"); (S_ISGID, "S"); (S_IXGRP, "x") ];
    [ (S_IROTH, "r") ];
    [ (S_IWOTH, "w") ];
    [ (Z.lor S_IXOTH S_ISVTX, "t"); (S_ISVTX, "T"); (S_IXOTH, "x") ]
  ]%char.

(** [stat.filemode(mode)], e.g. ["-rw-r--r--"]. *)
Definition filemode (mode : Z) : string :=
  string_of_list_ascii (map (fun table => pick table mode) filemode_table).
End Mode.

(** [str(n)] for a Python integer. *)
Definition str_int (n : Z) : string := NilZero.string_of_int (Z.to_int n).

(* ------------------------------------------------------------------ *)
(** ** Calendar values and their ISO text

    A naive [datetime.datetime]; [isoformat] is the method of the same
    name with its default arguments. *)

Record datetime : Type := mkDatetime {
  year : Z; month : Z; day : Z;
  hour : Z; minute : Z; second : Z;
  microsecond : Z
}.

(** The ranges Python guarantees for every [datetime] object. *)
Definition valid_datetime (d : datetime) : Prop :=
  (1 <= year d <= 9999 /\ 1 <= month d <= 12 /\ 1 <= day d <= 31 /\
   0 <= hour d < 24 /\ 0 <= minute d < 60 /\ 0 <= second d < 60 /\
   0 <= microsecond d < 1000000)%Z.

Definition digit_char (n : Z) : ascii :=
  ascii_of_nat (48 + Z.to_nat (n mod 10)).

(** ["%0wd" % n] for [0 <= n < 10^w]: the [w] low decimal digits. *)
Fixpoint zpad (w : nat) (n : Z) : string :=
  match w with
  | O => ""
  | S w' => zpad w' (n / 10) ++ String (digit_char n) ""
  end.

Definition isoformat (d : datetime) : string :=
  zpad 4 (year d) ++ "-" ++ zpad 2 (month d) ++ "-" ++ zpad 2 (day d) ++
  "T" ++ zpad 2 (hour d) ++ ":" ++ zpad 2 (minute d) ++ ":" ++
  zpad 2 (second d) ++
  (if Z.eqb (microsecond d) 0 then "" else "." ++ zpad 6 (microsecond d)).

(** Reading the text back, as [datetime.fromisoformat] does for the two
    shapes [isoformat] produces. *)
Definition digit_value (c : ascii) : option Z :=
  let k := nat_of_ascii c in
  if ((48 <=? k) && (k <=? 57))%nat then Some (Z.of_nat (k - 48)) else None.

Fixpoint read_digits (w : nat) (acc : Z) (s : string) : option (Z * string) :=
  match w with
  | O => Some (acc, s)
  | S w' =>
      match s with
      | EmptyString => None
      | String c s' =>
          match digit_value c with
          | Some v => read_digits w' (10 * acc + v) s'
          | None => None
          end
      end
  end.

Definition expect (c : ascii) (s : string) : option string :=
  match s with
  | String a s' => if Ascii.eqb a c then Some s' else None
  | EmptyString => None
  end.

Definition obind {A B} (o : option A) (f : A -> option B) : option B :=
  match o with Some a => f a | None => None end.

Definition in_range (lo hi n : Z) : bool := (Z.leb lo n && Z.leb n hi).

Definition fromisoformat (s : string) : option datetime :=
  obind (read_digits 4 0 s) (fun '(y, s) =>
  obind (expect "-" s) (fun s =>
  obind (read_digits 2 0 s) (fun '(mo, s) =>
  obind (expect "-" s) (fun s =>
  obind (read_digits 2 0 s) (fun '(d, s) =>
  obind (expect "T" s) (fun s =>
  obind (read_digits 2 0 s) (fun '(h, s) =>
  obind (expect ":" s) (fun s =>
  obind (read_digits 2 0 s) (fun '(mi, s) =>
  obind (expect ":" s) (fun s =>
  obind (read_digits 2 0 s) (fun '(se, s) =>
  obind (match s with
         | EmptyString => Some 0%Z
         | _ => obind (expect "." s) (fun s =>
                obind (read_digits 6 0 s) (fun '(us, s) =>
                match s with EmptyString => Some us | _ => None end))
         end) (fun us =>
  if in_range 1 9999 y && in_range 1 12 mo && in_range 1 31 d &&
     in_range 0 23 h && in_range 0 59 mi && in_range 0 59 se
  then Some (mkDatetime y mo d h mi se us) else None)))))))))))).

(* ------------------------------------------------------------------ *)
(** ** Exceptions

    The program distinguishes three handlers: [except FileNotFoundError],
    [except OSError] and [except Exception].  [os_error] is the [OSError]
    family; every other [Exception] ([ValueError], [UnicodeEncodeError],
    ...) is an [OtherException].  The carried text is [str(e)]. *)

Inductive os_error : Type :=
| FileNotFoundError (text : string)
| PermissionError (text : string)
| OSError (text : string).

Inductive exn : Type :=
| OSErr (e : os_error)
| OtherException (text : string).

Definition os_error_str (e : os_error) : string :=
  match e with
  | FileNotFoundError t | PermissionError t | OSError t => t
  end.

Definition exn_str (e : exn) : string :=
  match e with
  | OSErr e' => os_error_str e'
  | OtherException t => t
  end.

(* ------------------------------------------------------------------ *)
(** ** The platform and the operating system

    [Platform] fixes the representation of the status times and the
    conversion [datetime.datetime.fromtimestamp], which depends on the
    local time zone; the conversion is taken to succeed, as it does for
    every time a calendar year between 1 and 9999 can express. *)

Class Platform : Type := {
  timestamp : Type;
  fromtimestamp : timestamp -> datetime;
  fromtimestamp_valid : forall t, valid_datetime (fromtimestamp t)
}.

(** An output file object, identified by the name it was opened under. *)
Definition file_object : Type := string.

(** The calls the program makes, each as a function of the state [W] of
    the world that answers and moves to a next state; the answers of later
    calls may contradict earlier ones, as a file system changing under the
    program does.

    - [os_exists], [os_is_file], [os_is_dir]: the [pathlib] predicates,
      which follow symbolic links and answer [False] for a path whose
      status cannot be read;
    - [os_stat]: [Path.stat()], a status or an error of the [OSError]
      family;
    - [os_iterdir], [os_rglob]: one complete run of the generators
      [Path.iterdir()] and [Path.rglob("*")]: the paths yielded, in order,
      and the error that ended the run, if one did;
    - [os_open], [os_write], [os_print], [os_close]: [open(name, "w")],
      [output_file.write(s)], [print(s, end="")] and [output_file.close()],
      each of which may raise. *)
Class OS {P : Platform} (W : Type) : Type := {
  os_exists : Path -> W -> bool * W;
  os_is_file : Path -> W -> bool * W;
  os_is_dir : Path -> W -> bool * W;
  os_stat : Path -> W -> (os_error + stat_result timestamp) * W;
  os_iterdir : Path -> W -> (list Path * option os_error) * W;
  os_rglob : Path -> W -> (list Path * option os_error) * W;
  os_open : string -> W -> option exn * W;
  os_write : file_object -> string -> W -> option exn * W;
  os_print : string -> W -> option exn * W;
  os_close : file_object -> W -> option exn * W
}.

(* ------------------------------------------------------------------ *)
(** ** Observable behaviour *)

Inductive level : Type := DEBUG | INFO | WARNING | ERROR.

(** [logging]'s numeric levels. *)
Definition levelno (l : level) : Z :=
  match l with DEBUG => 10 | INFO => 20 | WARNING => 30 | ERROR => 40 end.

(** What a run does to the outside, in order: log records that passed the
    logger's level, the output file being opened and closed, and the data
    accepted by the output file or by standard output. *)
Inductive event : Type :=
| Log (lvl : level) (msg : string)
| Opened (name : string)
| Closed (name : string)
| FileWrite (name : string) (data : string)
| StdoutWrite (data : string).

(** The data stream of a trace: what reached either sink, in order. *)
Fixpoint output_of (tr : list event) : list string :=
  match tr with
  | [] => []
  | FileWrite _ d :: tr' => d :: output_of tr'
  | StdoutWrite d :: tr' => d :: output_of tr'
  | _ :: tr' => output_of tr'
  end.

Fixpoint logs_of (tr : list event) : list (level * string) :=
  match tr with
  | [] => []
  | Log l m :: tr' => (l, m) :: logs_of tr'
  | _ :: tr' => logs_of tr'
  end.

Fixpoint count_opened (tr : list event) : nat :=
  match tr with
  | [] => 0
  | Opened _ :: tr' => S (count_opened tr')
  | _ :: tr' => count_opened tr'
  end.

Fixpoint count_closed (tr : list event) : nat :=
  match tr with
  | [] => 0
  | Closed _ :: tr' => S (count_closed tr')
  | _ :: tr' => count_closed tr'
  end.

(* ------------------------------------------------------------------ *)
(** ** The monad of programs *)

Inductive outcome (A : Type) : Type :=
| Ret (a : A)
| Raise (e : exn).
Arguments Ret {A} a.
Arguments Raise {A} e.

Section Monad.
Context {W : Type}.

(** The state a program runs in: the world, the level of the root logger
    and the events so far, oldest first. *)
Record state : Type := mkState {
  world : W;
  logger_level : level;
  trace : list event
}.

Definition M (A : Type) : Type := state -> outcome A * state.

Definition ret {A} (a : A) : M A := fun s => (Ret a, s).
Definition raise {A} (e : exn) : M A := fun s => (Raise e, s).

Definition bind {A B} (m : M A) (k : A -> M B) : M B :=
  fun s => match m s with
           | (Ret a, s') => k a s'
           | (Raise e, s') => (Raise e, s')
           end.

(** [try: body / except ...: handler]: [handler e] is [None] when no
    [except] clause matches [e], which then propagates. *)
Definition try_except {A} (body : M A) (handler : exn -> option (M A)) : M A :=
  fun s => match body s with
           | (Ret a, s') => (Ret a, s')
           | (Raise e, s') =>
               match handler e with
               | Some h => h s'
               | None => (Raise e, s')
               end
           end.

(** [try: body / finally: cleanup]: the cleanup runs on every exit; an
    exception it raises replaces the outcome of the body. *)
Definition try_finally {A} (body : M A) (cleanup : M unit) : M A :=
  fun s => match body s with
           | (r, s') =>
               match cleanup s' with
               | (Ret _, s'') => (r, s'')
               | (Raise e, s'') => (Raise e, s'')
               end
           end.

Definition emit (ev : event) : M unit :=
  fun s => (Ret tt, mkState (world s) (logger_level s) (trace s ++ [ev])).

(** A call to the world: thread its state, keep the answer. *)
Definition call {A} (f : W -> A * W) : M A :=
  fun s => let '(a, w') := f (world s) in
           (Ret a, mkState w' (logger_level s) (trace s)).

(** [logging.getLogger().setLevel(l)] *)
Definition setLevel (l : level) : M unit :=
  fun s => (Ret tt, mkState (world s) l (trace s)).

(** [logging.log(lvl, msg)]: the record is handled when the logger is
    enabled for [lvl]. *)
Definition logging_log (lvl : level) (msg : string) : M unit :=
  fun s => if Z.leb (levelno (logger_level s)) (levelno lvl)
           then emit (Log lvl msg) s
           else (Ret tt, s).

Definition logging_error := logging_log ERROR.
Definition logging_warning := logging_log WARNING.
End Monad.
Arguments state W : clear implicits.
Arguments M W A : clear implicits.

Notation "x <- c1 ;; c2" := (bind c1 (fun x => c2))
  (at level 61, c1 at next level, right associativity).
Notation "c1 ;; c2" := (bind c1 (fun _ => c2))
  (at level 61, right associativity).

(* ------------------------------------------------------------------ *)
(** ** The program *)

(** The dictionary [get_file_metadata] returns. *)
Record metadata : Type := mkMetadata {
  file_path : string;
  file_name : string;
  file_size : Z;
  modified_time : string;
  accessed_time : string;
  created_time : string;
  permissions : string;
  owner_uid : Z;
  owner_gid : Z
}.

(** The parsed command line ([setup_argparse]). *)
Module Args.
Record t : Type := mk {
  path : string;
  recursive : bool;
  output : option string;
  verbose : bool
}.
End Args.

(** Which [return] of [main] ended the run. *)
Inductive exit_path : Type :=
| ReturnPathMissing
| ReturnOutputUnopenable
| EndOfMain.

Section Program.
Context {P : Platform} {W : Type} {os : OS W}.
Local Abbreviation M := (M W).

(** The calls, as programs. *)
Definition exists_ (p : Path) : M bool := call (os_exists p).
Definition is_file (p : Path) : M bool := call (os_is_file p).
Definition is_dir (p : Path) : M bool := call (os_is_dir p).

Definition stat (p : Path) : M (stat_result timestamp) :=
  r <- call (os_stat p) ;;
  match r with
  | inr st => ret st
  | inl e => raise (OSErr e)
  end.

Definition open_ (name : string) : M file_object :=
  r <- call (os_open name) ;;
  match r with
  | None => emit (Opened name) ;; ret name
  | Some e => raise e
  end.

Definition write (f : file_object) (data : string) : M unit :=
  r <- call (os_write f data) ;;
  match r with
  | None => emit (FileWrite f data)
  | Some e => raise e
  end.

Definition print (data : string) : M unit :=
  r <- call (os_print data) ;;
  match r with
  | None => emit (StdoutWrite data)
  | Some e => raise e
  end.

(** [f.close()]: the object is closed even when flushing fails. *)
Definition close (f : file_object) : M unit :=
  r <- call (os_close f) ;;
  emit (Closed f) ;;
  match r with
  | None => ret tt
  | Some e => raise e
  end.

(** [for x in xs: body] *)
Fixpoint for_each (xs : list Path) (body : Path -> M unit) : M unit :=
  match xs with
  | [] => ret tt
  | x :: rest => body x ;; for_each rest body
  end.

(** [for x in gen: body], for one run of a generator: the body handles
    the yielded paths in order; an error that ends the run is raised once
    the paths yielded before it have been handled.  (Python produces the
    paths one per iteration; here the answer of the world fixes the whole
    run when the loop starts.) *)
Definition for_in (gen : M (list Path * option os_error))
           (body : Path -> M unit) : M unit :=
  g <- gen ;;
  for_each (fst g) body ;;
  match snd g with
  | None => ret tt
  | Some e => raise (OSErr e)
  end.

(** [get_file_metadata] (main.py, lines 23-53): the dictionary, or [None]
    after logging when [stat] raises in the [OSError] family. *)
Definition get_file_metadata (file_path : Path) : M (option metadata) :=
  try_except
    (stat_info <- stat file_path ;;
     ret (Some {|
       file_path := path_str file_path;
       file_name := path_name file_path;
       file_size := st_size stat_info;
       modified_time := isoformat (fromtimestamp (st_mtime stat_info));
       accessed_time := isoformat (fromtimestamp (st_atime stat_info));
       created_time := isoformat (fromtimestamp (st_ctime stat_info));
       permissions := Mode.filemode (st_mode stat_info);
       owner_uid := st_uid stat_info;
       owner_gid := st_gid stat_info
     |}))
    (fun e =>
       match e with
       | OSErr (FileNotFoundError _) =>
           Some (logging_error ("File not found: " ++ path_str file_path) ;;
                 ret None)
       | OSErr e' =>
           Some (logging_error ("Error accessing file " ++ path_str file_path
                                ++ ": " ++ os_error_str e') ;;
                 ret None)
       | OtherException _ => None
       end).

(** The f-string of [process_file]. *)
Definition output_string (md : metadata) : string :=
  modified_time md ++ "," ++ accessed_time md ++ "," ++ created_time md ++
  "," ++ file_path md ++ "," ++ file_name md ++ "," ++
  str_int (file_size md) ++ "," ++ permissions md ++ "," ++
  str_int (owner_uid md) ++ "," ++ str_int (owner_gid md) ++ newline.

(** [process_file] (lines 55-75).  [output_file] is [None] for standard
    output; a file object is always true in [if output_file:]. *)
Definition process_file (file_path : Path) (output_file : option file_object)
  : M unit :=
  metadata <- get_file_metadata file_path ;;
  match metadata with
  | Some md =>
      match output_file with
      | Some f =>
          try_except (write f (output_string md))
            (fun e => Some (logging_error ("Error writing to output file: "
                                           ++ exn_str e)))
      | None => print (output_string md)
      end
  | None => logging_warning ("Could not process file: " ++ path_str file_path)
  end.

(** [process_directory] (lines 77-96): one [try] around either loop. *)
Definition process_directory (dir_path : Path) (recursive : bool)
           (output_file : option file_object) : M unit :=
  try_except
    (if recursive then
       for_in (call (os_rglob dir_path)) (fun file_path =>
         b <- is_file file_path ;;
         if b then process_file file_path output_file else ret tt)
     else
       for_in (call (os_iterdir dir_path)) (fun file_path =>
         b <- is_file file_path ;;
         if b then process_file file_path output_file else ret tt))
    (fun e =>
       match e with
       | OSErr e' =>
           Some (logging_error ("Error accessing directory "
                                ++ path_str dir_path ++ ": " ++ os_error_str e'))
       | OtherException _ => None
       end).

(** [if args.output:] — [None] and the empty string are both false. *)
Definition output_requested (o : option string) : option string :=
  match o with
  | Some EmptyString => None
  | other => other
  end.

(** [main] (lines 99-132), from the parsed arguments on.  The value
    returned records which [return] was taken; Python returns [None] at
    each. *)
Definition main (args : Args.t) : M exit_path :=
  (if Args.verbose args then setLevel DEBUG else ret tt) ;;
  let path := Path_of_string (Args.path args) in
  found <- exists_ path ;;
  if negb found then
    logging_error ("Path does not exist: " ++ Args.path args) ;;
    ret ReturnPathMissing
  else
    opened <-
      match output_requested (Args.output args) with
      | Some name =>
          try_except (f <- open_ name ;; ret (Some (Some f)))
            (fun e => Some (logging_error ("Error opening output file: "
                                           ++ exn_str e) ;;
                            ret None))
      | None => ret (Some None)
      end ;;
    match opened with
    | None => ret ReturnOutputUnopenable
    | Some output_file_object =>
        try_finally
          (f <- is_file path ;;
           if f then process_file path output_file_object
           else
             d <- is_dir path ;;
             if d then
               process_directory path (Args.recursive args) output_file_object
             else
               logging_error "Invalid path type.  Must be a file or directory.")
          (match output_file_object with
           | Some f => close f
           | None => ret tt
           end) ;;
        ret EndOfMain
    end.

(** The state [main] starts in: [logging.basicConfig(level=logging.INFO)]
    and nothing observed yet. *)
Definition initial (w : W) : state W := mkState w INFO [].

Definition run (args : Args.t) (w : W) : outcome exit_path * state W :=
  main args (initial w).
End Program.

(* ------------------------------------------------------------------ *)
(** ** A file system that holds still

    One instance of the interface: a finite tree of directories, files and
    symbolic links that does not change during the run, with sinks that
    accept every write.  The current directory is the root of the tree. *)

Module Tree.
Section Tree.
Context {P : Platform}.

(** - [File]: anything that is neither a directory nor a link; its kind
      (regular file, socket, device, ...) is in [st_mode];
    - [Dir]: a directory and its entries, in listing order;
    - [Symlink]: a link, with its own status (what [lstat] reports) and
      the node its target path leads to;
    - [Dangling]: a link whose target does not exist. *)
#[warnings="-register-all"] Inductive node : Type :=
| File (st : stat_result timestamp)
| Dir (st : stat_result timestamp) (entries : list (string * node))
| Symlink (own : stat_result timestamp) (target : node)
| Dangling (own : stat_result timestamp).

(** Follow links to the node they end at. *)
Fixpoint follow (n : node) : option node :=
  match n with
  | Symlink _ t => follow t
  | Dangling _ => None
  | other => Some other
  end.

Fixpoint lookup (name : string) (entries : list (string * node)) : option node :=
  match entries with
  | [] => None
  | (k, n) :: rest => if String.eqb k name then Some n else lookup name rest
  end.

(** Walk the components of a path from [n]; links met on the way are
    followed, the last component is not.  [inl true]: a component is
    missing (ENOENT); [inl false]: a component is not a directory
    (ENOTDIR). *)
Fixpoint locate (n : node) (ps : list string) : bool + node :=
  match ps with
  | [] => inr n
  | c :: rest =>
      match follow n with
      | Some (Dir _ entries) =>
          match lookup c entries with
          | Some n' => locate n' rest
          | None => inl true
          end
      | Some _ => inl false
      | None => inl true
      end
  end.

(** The node a path resolves to with every link followed. *)
Definition resolve (root : node) (p : Path) : os_error + node :=
  match locate root (parts p) with
  | inr n =>
      match follow n with
      | Some n' => inr n'
      | None => inl (FileNotFoundError
                       ("[Errno 2] No such file or directory: " ++ path_str p))
      end
  | inl true => inl (FileNotFoundError
                       ("[Errno 2] No such file or directory: " ++ path_str p))
  | inl false => inl (OSError ("[Errno 20] Not a directory: " ++ path_str p))
  end.

Definition node_stat (n : node) : stat_result timestamp :=
  match n with
  | File st | Dir st _ | Symlink st _ | Dangling st => st
  end.

(** [Path.stat()] *)
Definition stat_of (root : node) (p : Path) : os_error + stat_result timestamp :=
  match resolve root p with
  | inr n => inr (node_stat n)
  | inl e => inl e
  end.

(** [Path.is_file()], [Path.is_dir()], [Path.exists()]: the status with
    links followed, [False] when it cannot be read. *)
Definition is_file_of (root : node) (p : Path) : bool :=
  match stat_of root p with
  | inr st => Mode.S_ISREG (st_mode st)
  | inl _ => false
  end.

Definition is_dir_of (root : node) (p : Path) : bool :=
  match stat_of root p with
  | inr st => Mode.S_ISDIR (st_mode st)
  | inl _ => false
  end.

Definition exists_of (root : node) (p : Path) : bool :=
  match stat_of root p with
  | inr _ => true
  | inl _ => false
  end.

Definition children (p : Path) (entries : list (string * node)) : list Path :=
  map (fun e => child p (fst e)) entries.

(** [Path.iterdir()] *)
Definition iterdir_of (root : node) (p : Path) : list Path * option os_error :=
  match resolve root p with
  | inr (Dir _ entries) => (children p entries, None)
  | inr _ => ([], Some (OSError ("[Errno 20] Not a directory: " ++ path_str p)))
  | inl e => ([], Some e)
  end.

(** The walk of [rglob("*")] below a directory node at path [p]: the
    entries of the directory, then the walk of each entry that is itself
    a directory.  Links to directories are yielded but not entered. *)
Fixpoint walk (p : Path) (n : node) : list Path :=
  match n with
  | Dir _ entries =>
      (children p entries ++
       (fix below (es : list (string * node)) : list Path :=
          match es with
          | [] => []
          | (name, c) :: es' => walk (child p name) c ++ below es'
          end) entries)%list
  | _ => []
  end.

(** [Path.rglob("*")]: nothing when the path is not a directory. *)
Definition rglob_of (root : node) (p : Path) : list Path * option os_error :=
  match resolve root p with
  | inr n => (walk p n, None)
  | inl _ => ([], None)
  end.

#[global] Instance tree_os : OS node := {
  os_exists p w := (exists_of w p, w);
  os_is_file p w := (is_file_of w p, w);
  os_is_dir p w := (is_dir_of w p, w);
  os_stat p w := (stat_of w p, w);
  os_iterdir p w := (iterdir_of w p, w);
  os_rglob p w := (rglob_of w p, w);
  os_open _ w := (None, w);
  os_write _ _ w := (None, w);
  os_print _ w := (None, w);
  os_close _ w := (None, w)
}.
End Tree.
End Tree.

(* ------------------------------------------------------------------ *)
(** ** A world of fixed answers

    A second instance: every call is answered by a function of its
    arguments alone, and the answers of different calls need not agree
    with each other (a path may pass [is_file] and fail [stat], as when a
    file disappears between enumeration and inspection). *)

Module Fixed.
Section Fixed.
Context {P : Platform}.

Record answers : Type := mkAnswers {
  a_exists : Path -> bool;
  a_is_file : Path -> bool;
  a_is_dir : Path -> bool;
  a_stat : Path -> os_error + stat_result timestamp;
  a_iterdir : Path -> list Path * option os_error;
  a_rglob : Path -> list Path * option os_error;
  a_open : string -> option exn;
  a_write : file_object -> string -> option exn;
  a_print : string -> option exn;
  a_close : file_object -> option exn
}.

#[global] Instance fixed_os : OS answers := {
  os_exists p w := (a_exists w p, w);
  os_is_file p w := (a_is_file w p, w);
  os_is_dir p w := (a_is_dir w p, w);
  os_stat p w := (a_stat w p, w);
  os_iterdir p w := (a_iterdir w p, w);
  os_rglob p w := (a_rglob w p, w);
  os_open name w := (a_open w name, w);
  os_write f d w := (a_write w f d, w);
  os_print d w := (a_print w d, w);
  os_close f w := (a_close w f, w)
}.
End Fixed.
End Fixed.

(* ------------------------------------------------------------------ *)
(** ** Vocabulary of the statements *)

Section Vocabulary.
Context {P : Platform} {W : Type} {os : OS W}.

(** The dictionary built from a status. *)
Definition metadata_of (p : Path) (st : stat_result timestamp) : metadata :=
  {| file_path := path_str p;
     file_name := path_name p;
     file_size := st_size st;
     modified_time := isoformat (fromtimestamp (st_mtime st));
     accessed_time := isoformat (fromtimestamp (st_atime st));
     created_time := isoformat (fromtimestamp (st_ctime st));
     permissions := Mode.filemode (st_mode st);
     owner_uid := st_uid st;
     owner_gid := st_gid st |}.

(** The nine fields of a record, in output order. *)
Definition fields (md : metadata) : list string :=
  [ modified_time md; accessed_time md; created_time md; file_path md;
    file_name md; str_int (file_size md); permissions md;
    str_int (owner_uid md); str_int (owner_gid md) ].

(** The line written for a path with status [st]. *)
Definition record_line (p : Path) (st : stat_result timestamp) : string :=
  output_string (metadata_of p st).

(** The message [get_file_metadata] logs for a failed [stat]. *)
Definition stat_failure_message (p : Path) (e : os_error) : string :=
  match e with
  | FileNotFoundError _ => "File not found: " ++ path_str p
  | _ => "Error accessing file " ++ path_str p ++ ": " ++ os_error_str e
  end.

(** A world at rest: no call changes it, so equal calls get equal
    answers. *)
Definition quiet (w : W) : Prop :=
  (forall p, snd (os_exists p w) = w) /\
  (forall p, snd (os_is_file p w) = w) /\
  (forall p, snd (os_is_dir p w) = w) /\
  (forall p, snd (os_stat p w) = w) /\
  (forall p, snd (os_iterdir p w) = w) /\
  (forall p, snd (os_rglob p w) = w) /\
  (forall n, snd (os_open n w) = w) /\
  (forall f d, snd (os_write f d w) = w) /\
  (forall d, snd (os_print d w) = w) /\
  (forall f, snd (os_close f w) = w).

(** The generator [process_directory] iterates. *)
Definition enumerate (recursive : bool) (d : Path) (w : W)
  : (list Path * option os_error) * W :=
  if recursive then os_rglob d w else os_iterdir d w.

(** The sink a record goes to accepts every write in world [w]. *)
Definition sink_accepts (out : option file_object) (w : W) : Prop :=
  match out with
  | Some f => forall d, fst (os_write f d w) = None
  | None => forall d, fst (os_print d w) = None
  end.

(** The event of a record reaching its sink. *)
Definition written (out : option file_object) (line : string) : event :=
  match out with
  | Some f => FileWrite f line
  | None => StdoutWrite line
  end.

End Vocabulary.

Arguments output_string : simpl never.
Arguments metadata_of : simpl never.
Arguments record_line : simpl never.
Arguments isoformat : simpl never.
Arguments Mode.filemode : simpl never.
Arguments str_int : simpl never.
Arguments path_str : simpl never.
Arguments path_name : simpl never.
Arguments newline : simpl never.

Unset Implicit Arguments.

(* ------------------------------------------------------------------ *)
(** ** Vocabulary of the proofs *)

Section Shapes.
Context {P : Platform} {W : Type} {os : OS W}.
Implicit Types (s : state W) (p d : Path) (out : option file_object).

(** The events of [logging.warning(msg)] under logger level [l]. *)
Definition warning_events (l : level) (msg : string) : list event :=
  if Z.leb (levelno l) (levelno WARNING) then [Log WARNING msg] else [].

(** What [process_file] leaves in the trace when [stat] fails with [e]. *)
Definition failure_events (l : level) p (e : os_error) : list event :=
  Log ERROR (stat_failure_message p e)
  :: warning_events l ("Could not process file: " ++ path_str p).

(** The body of both loops of [process_directory]. *)
Definition loop_body out : Path -> M W unit :=
  fun file_path =>
    b <- is_file file_path ;;
    if b then process_file file_path out else ret tt.

(** The message of the [except OSError] of [process_directory]. *)
Definition directory_failure_message d (e : os_error) : string :=
  "Error accessing directory " ++ path_str d ++ ": " ++ os_error_str e.

(** What the end of the enumeration leaves in the trace. *)
Definition enumeration_events d (oe : option os_error) : list event :=
  match oe with
  | None => []
  | Some e => [Log ERROR (directory_failure_message d e)]
  end.

(** In a quiet world with an accepting sink: the events one enumerated
    entry leaves. *)
Definition entry_events (w : W) out (l : level) p : list event :=
  if fst (os_is_file p w) then
    match fst (os_stat p w) with
    | inr st => [written out (record_line p st)]
    | inl e => failure_events l p e
    end
  else [].

(** The body of the [try] of [main]. *)
Definition dispatch (path : Path) (recursive : bool) out : M W unit :=
  f <- is_file path ;;
  if f then process_file path out
  else
    d <- is_dir path ;;
    if d then process_directory path recursive out
    else logging_error "Invalid path type.  Must be a file or directory.".

(** The [finally] of [main]. *)
Definition closing out : M W unit :=
  match out with
  | Some f => close f
  | None => ret tt
  end.

(** Everything of [main] from the [try] on. *)
Definition processing (args : Args.t) out : M W exit_path :=
  try_finally
    (dispatch (Path_of_string (Args.path args)) (Args.recursive args) out)
    (closing out) ;;
  ret EndOfMain.

(** The logger level [main] works under. *)
Definition working_level (args : Args.t) (l : level) : level :=
  if Args.verbose args then DEBUG else l.

(** The path named on the command line does not exist. *)
Definition path_missing (args : Args.t) (w : W) : Prop :=
  fst (os_exists (Path_of_string (Args.path args)) w) = false.

(** An output file was asked for and opening it fails. *)
Definition output_unopenable (args : Args.t) (w : W) : Prop :=
  exists name e,
    output_requested (Args.output args) = Some name /\
    fst (os_open name
           (snd (os_exists (Path_of_string (Args.path args)) w))) = Some e.


(** [adds Q m]: whatever the world answers and however [m] ends, [m] only
    appends events, and each appended event satisfies [Q]. *)
Definition adds (Q : event -> Prop) {A} (m : M W A) : Prop :=
  forall s r s', m s = (r, s') ->
    exists evs, trace s' = (trace s ++ evs)%list /\ Forall Q evs.

(** [m] does not see whether the logger is at [INFO] or at [DEBUG]: from
    two states that differ in that alone it ends alike, in two states
    that again differ in that alone. *)
Definition level_blind {A} (m : M W A) : Prop :=
  forall (w : W) (tr : list event),
    logger_level (snd (m (mkState w INFO tr))) = INFO /\
    m (mkState w DEBUG tr) =
    (fst (m (mkState w INFO tr)),
     mkState (world (snd (m (mkState w INFO tr)))) DEBUG
             (trace (snd (m (mkState w INFO tr))))).
End Shapes.

(** The events of handling files: log records and record lines. *)
Inductive processing_event {P : Platform} : event -> Prop :=
| pe_log l msg : processing_event (Log l msg)
| pe_file f p st : processing_event (FileWrite f (record_line p st))
| pe_stdout p st : processing_event (StdoutWrite (record_line p st)).

(** A line of the data stream that is the serialization of a record. *)
Definition is_record_line {P : Platform} (line : string) : Prop :=
  exists p st, line = record_line p st.

(** Writes carry record lines; other events are unconstrained. *)
Definition carries_records {P : Platform} (ev : event) : Prop :=
  match ev with
  | FileWrite _ d | StdoutWrite d => is_record_line d
  | _ => True
  end.

Module TreeSpec.
Import Tree.
Section TreeSpec.
Context {P : Platform}.

Fixpoint names_unique (names : list string) : bool :=
  match names with
  | [] => true
  | x :: rest => negb (existsb (String.eqb x) rest) && names_unique rest
  end.

(** A tree as a file system presents it: a directory node has the mode of
    a directory and no two entries of one name; a [File] node is not a
    directory. *)
Fixpoint well_formed (n : node) : bool :=
  match n with
  | File st => negb (Mode.S_ISDIR (st_mode st))
  | Dir st es =>
      Mode.S_ISDIR (st_mode st) && names_unique (map fst es) &&
      (fix all (es : list (string * node)) : bool :=
         match es with
         | [] => true
         | (_, c) :: es' => well_formed c && all es'
         end) es
  | Symlink _ t => well_formed t
  | Dangling _ => true
  end.

(** The entries of the subtree of a directory, in the words of the
    specification: [below p n q c] when [c] is an entry, at path [q], of
    the directory [n] at path [p] or of a directory found below it.
    Directories behind links are not part of the subtree. *)
Inductive below : Path -> node -> Path -> node -> Prop :=
| below_entry p st es name c :
    In (name, c) es -> below p (Dir st es) (child p name) c
| below_deeper p st es name sub_st sub_es q c :
    In (name, Dir sub_st sub_es) es ->
    below (child p name) (Dir sub_st sub_es) q c ->
    below p (Dir st es) q c.

(** The entries of the directory itself: one level. *)
Inductive entry_of : Path -> node -> Path -> node -> Prop :=
| entry_of_dir p st es name c :
    In (name, c) es -> entry_of p (Dir st es) (child p name) c.

(** What a traversal is to consider: the full subtree when recursive, the
    direct entries otherwise. *)
Definition listed (recursive : bool) : Path -> node -> Path -> node -> Prop :=
  if recursive then below else entry_of.

(** With links followed, the entry is a regular file. *)
Definition is_regular (c : node) : bool :=
  match follow c with
  | Some n => Mode.S_ISREG (st_mode (node_stat n))
  | None => false
  end.

(** The line of a path, when its status can be read. *)
Definition record_at (root : node) (p : Path) : option string :=
  match stat_of root p with
  | inr st => Some (record_line p st)
  | inl _ => None
  end.

(** The paths [process_directory] hands to [process_file]. *)
Definition selected (root : node) (recursive : bool) (d : Path) : list Path :=
  filter (is_file_of root)
         (fst (if recursive then rglob_of root d else iterdir_of root d)).
(** The node the tree holds at path [p], links followed, is [n]. *)
Definition holds (root : node) (p : Path) (n : node) : Prop :=
  exists n0, locate root (parts p) = inr n0 /\ follow n0 = Some n.
End TreeSpec.
End TreeSpec.

(* ------------------------------------------------------------------ *)
(** ** Concrete platforms and worlds, for examples *)

Module Example.
Open Scope Z_scope.

Definition clamp (lo hi x : Z) : Z := Z.max lo (Z.min hi x).

(** Epoch seconds to a calendar value in UTC (the civil-calendar
    computation over 400-year eras), for a file system that keeps whole
    seconds. *)
Definition utc_fromtimestamp (t : Z) : datetime :=
  let days := t / 86400 in
  let secs := t mod 86400 in
  let z := days + 719468 in
  let era := z / 146097 in
  let doe := z mod 146097 in
  let yoe := (doe - doe / 1460 + doe / 36524 - doe / 146096) / 365 in
  let doy := doe - (365 * yoe + yoe / 4 - yoe / 100) in
  let mp := (5 * doy + 2) / 153 in
  let d := doy - (153 * mp + 2) / 5 + 1 in
  let m := if mp <? 10 then mp + 3 else mp - 9 in
  let y := yoe + era * 400 + (if m <=? 2 then 1 else 0) in
  mkDatetime (clamp 1 9999 y) (clamp 1 12 m) (clamp 1 31 d)
             (secs / 3600) (secs mod 3600 / 60) (secs mod 60) 0.

Lemma utc_fromtimestamp_valid (t : Z) : valid_datetime (utc_fromtimestamp t).
Proof.
  unfold valid_datetime, utc_fromtimestamp, clamp; cbn [year month day hour minute second microsecond].
  assert (0 <= t mod 86400 < 86400) by (apply Z.mod_pos_bound; lia).
  generalize dependent (t mod 86400). intros secs Hs.
  repeat split; try lia.
  - apply Z.div_pos; lia.
  - apply Z.div_lt_upper_bound; lia.
  - apply Z.div_pos; [apply Z.mod_pos_bound|]; lia.
  - apply Z.div_lt_upper_bound; [lia|].
    pose proof (Z.mod_pos_bound secs 3600). lia.
  - apply Z.mod_pos_bound; lia.
  - apply Z.mod_pos_bound; lia.
Qed.

#[global] Instance utc : Platform := {
  timestamp := Z;
  fromtimestamp := utc_fromtimestamp;
  fromtimestamp_valid := utc_fromtimestamp_valid
}.

Fixpoint parts_eqb (a b : list string) : bool :=
  match a, b with
  | [], [] => true
  | x :: a', y :: b' => String.eqb x y && parts_eqb a' b'
  | _, _ => false
  end.

Definition path_eqb (p q : Path) : bool :=
  Bool.eqb (absolute p) (absolute q) && parts_eqb (parts p) (parts q).

(** A regular file with mode 0o100644, owned by 1000:1000. *)
Definition regular (size mtime : Z) : stat_result Z :=
  mkStat 33188 size 1000 1000 mtime mtime mtime.

Definition data : Path := mkPath false ["data"%string].
Definition a_txt : Path := child data "a.txt".
Definition gone_txt : Path := child data "gone.txt".
Definition b_txt : Path := child data "b.txt".

(** A directory [data] listing three entries that all pass [is_file];
    [gone.txt] has disappeared by the time it is inspected. *)
Definition vanishing : Fixed.answers := {|
  Fixed.a_exists := fun _ => true;
  Fixed.a_is_file := fun p => negb (path_eqb p data);
  Fixed.a_is_dir := fun p => path_eqb p data;
  Fixed.a_stat := fun p =>
    if path_eqb p a_txt then inr (regular 12 1709647629)
    else if path_eqb p b_txt then inr (regular 340 1709647700)
    else inl (FileNotFoundError
                "[Errno 2] No such file or directory: 'data/gone.txt'");
  Fixed.a_iterdir := fun _ => ([a_txt; gone_txt; b_txt], None);
  Fixed.a_rglob := fun _ => ([a_txt; gone_txt; b_txt], None);
  Fixed.a_open := fun _ => None;
  Fixed.a_write := fun _ _ => None;
  Fixed.a_print := fun _ => None;
  Fixed.a_close := fun _ => None
|}.

(** The same directory with every file readable, and a standard output
    that refuses every write with [e] (a closed pipe, an encoding error). *)
Definition refusing_stdout (e : exn) : Fixed.answers := {|
  Fixed.a_exists := fun _ => true;
  Fixed.a_is_file := fun p => negb (path_eqb p data);
  Fixed.a_is_dir := fun p => path_eqb p data;
  Fixed.a_stat := fun p =>
    if path_eqb p a_txt then inr (regular 12 1709647629)
    else inr (regular 340 1709647700);
  Fixed.a_iterdir := fun _ => ([a_txt; b_txt], None);
  Fixed.a_rglob := fun _ => ([a_txt; b_txt], None);
  Fixed.a_open := fun _ => None;
  Fixed.a_write := fun _ _ => None;
  Fixed.a_print := fun _ => Some e;
  Fixed.a_close := fun _ => None
|}.

(** A tree: [data] holds two regular files, a directory [sub] with one
    more, a link to [a.txt], a link to nowhere and a socket. *)
Definition dir_status : stat_result Z := mkStat 16877 4096 1000 1000 1709647000 1709647000 1709647000.
Definition link_status : stat_result Z := mkStat 41471 5 0 0 1709640000 1709640000 1709640000.
Definition socket_status : stat_result Z := mkStat 49645 0 1000 1000 1709647000 1709647000 1709647000.

Definition a_node : Tree.node := Tree.File (regular 12 1709647629).

Definition data_entries : list (string * Tree.node) :=
  [("a.txt"%string, a_node);
   ("sub"%string,
    Tree.Dir dir_status [("c.txt"%string, Tree.File (regular 7 1709647800))]);
   ("b.txt"%string, Tree.File (regular 340 1709647700));
   ("link.txt"%string, Tree.Symlink link_status a_node);
   ("broken"%string, Tree.Dangling link_status);
   ("sock"%string, Tree.File socket_status)].

Definition tree : Tree.node :=
  Tree.Dir dir_status [("data"%string, Tree.Dir dir_status data_entries)].

Definition broken_pipe : exn := OSErr (OSError "[Errno 32] Broken pipe").

Definition unencodable : exn :=
  OtherException "'utf-8' codec can't encode character: surrogates not allowed".

(** A directory [locked] that cannot be listed, next to [data]. *)
Definition locked : Path := mkPath false ["locked"%string].

Definition denied : os_error :=
  PermissionError "[Errno 13] Permission denied: 'locked'".

Definition with_locked : Fixed.answers := {|
  Fixed.a_exists := fun _ => true;
  Fixed.a_is_file := fun p => negb (path_eqb p data || path_eqb p locked);
  Fixed.a_is_dir := fun p => path_eqb p data || path_eqb p locked;
  Fixed.a_stat := fun p =>
    if path_eqb p a_txt then inr (regular 12 1709647629)
    else inr (regular 340 1709647700);
  Fixed.a_iterdir := fun p =>
    if path_eqb p locked then ([], Some denied) else ([a_txt; b_txt], None);
  Fixed.a_rglob := fun p =>
    if path_eqb p locked then ([], Some denied) else ([a_txt; b_txt], None);
  Fixed.a_open := fun _ => None;
  Fixed.a_write := fun _ _ => None;
  Fixed.a_print := fun _ => None;
  Fixed.a_close := fun _ => None
|}.
End Example.

(* ------------------------------------------------------------------ *)
(** ** Facts about the formatting helpers *)

Lemma append_assoc (a b c : string) : (a ++ b) ++ c = a ++ (b ++ c).
Proof. induction a as [|x a IH]; simpl; [reflexivity | now rewrite IH]. Qed.

Lemma append_nil_r (a : string) : a ++ "" = a.
Proof. induction a as [|x a IH]; simpl; [reflexivity | now rewrite IH]. Qed.

Lemma output_string_join (md : metadata) :
  output_string md = join "," (fields md) ++ newline.
Proof.
  unfold output_string, fields; simpl.
  repeat (rewrite append_assoc; simpl). reflexivity.
Qed.

(* ------------------------------------------------------------------ *)
(** ** Running the program: one file *)

Section ProgramFacts.
Context {P : Platform} {W : Type} {os : OS W}.
Implicit Types (s : state W) (p : Path) (out : option file_object).

Lemma error_enabled (l : level) : Z.leb (levelno l) (levelno ERROR) = true.
Proof. destruct l; reflexivity. Qed.

Lemma logging_error_run (msg : string) s :
  logging_error msg s =
  (Ret tt, mkState (world s) (logger_level s) (trace s ++ [Log ERROR msg])).
Proof.
  unfold logging_error, logging_log. now rewrite error_enabled.
Qed.

Lemma logging_warning_run (msg : string) s :
  logging_warning msg s =
  (Ret tt, mkState (world s) (logger_level s)
                   (trace s ++ warning_events (logger_level s) msg)).
Proof.
  unfold logging_warning, logging_log, warning_events, emit.
  destruct (Z.leb _ _); [reflexivity|].
  rewrite app_nil_r. now destruct s.
Qed.

Lemma get_file_metadata_ok p s st w' :
  os_stat p (world s) = (inr st, w') ->
  get_file_metadata p s =
  (Ret (Some (metadata_of p st)), mkState w' (logger_level s) (trace s)).
Proof.
  intros H. unfold get_file_metadata, try_except, stat, bind, call.
  now rewrite H.
Qed.

Lemma get_file_metadata_fail p s e w' :
  os_stat p (world s) = (inl e, w') ->
  get_file_metadata p s =
  (Ret None, mkState w' (logger_level s)
                     (trace s ++ [Log ERROR (stat_failure_message p e)])).
Proof.
  intros H. unfold get_file_metadata, try_except, stat, bind, call.
  rewrite H. cbn [raise].
  destruct e; rewrite logging_error_run; reflexivity.
Qed.

Lemma process_file_stat_failure p out s e w' :
  os_stat p (world s) = (inl e, w') ->
  process_file p out s =
  (Ret tt, mkState w' (logger_level s)
                   (trace s ++ failure_events (logger_level s) p e)).
Proof.
  intros H. unfold process_file, bind.
  rewrite (get_file_metadata_fail _ _ _ _ H), logging_warning_run. cbn.
  now rewrite <- app_assoc.
Qed.

Lemma process_file_written p out s st w1 w2 :
  os_stat p (world s) = (inr st, w1) ->
  match out with
  | Some f => os_write f (record_line p st) w1
  | None => os_print (record_line p st) w1
  end = (None, w2) ->
  process_file p out s =
  (Ret tt, mkState w2 (logger_level s)
                   (trace s ++ [written out (record_line p st)])).
Proof.
  intros H Hw. unfold process_file, bind.
  rewrite (get_file_metadata_ok _ _ _ _ H).
  destruct out as [f|]; unfold try_except, write, print, bind, call; cbn;
    fold (record_line p st); rewrite Hw; reflexivity.
Qed.

Lemma process_file_write_failure p f s st w1 w2 (e : exn) :
  os_stat p (world s) = (inr st, w1) ->
  os_write f (record_line p st) w1 = (Some e, w2) ->
  process_file p (Some f) s =
  (Ret tt, mkState w2 (logger_level s)
     (trace s ++ [Log ERROR ("Error writing to output file: " ++ exn_str e)])).
Proof.
  intros H Hw. unfold process_file, bind.
  rewrite (get_file_metadata_ok _ _ _ _ H).
  unfold try_except, write, bind, call; cbn.
  fold (record_line p st); rewrite Hw. cbn.
  now rewrite logging_error_run.
Qed.

Lemma process_file_print_failure p s st w1 w2 (e : exn) :
  os_stat p (world s) = (inr st, w1) ->
  os_print (record_line p st) w1 = (Some e, w2) ->
  process_file p None s =
  (Raise e, mkState w2 (logger_level s) (trace s)).
Proof.
  intros H Hw. unfold process_file, bind.
  rewrite (get_file_metadata_ok _ _ _ _ H).
  unfold print, bind, call; cbn.
  fold (record_line p st); rewrite Hw. reflexivity.
Qed.
End ProgramFacts.

(* ------------------------------------------------------------------ *)
(** ** Running the program: a directory *)

Section DirectoryFacts.
Context {P : Platform} {W : Type} {os : OS W}.
Implicit Types (s : state W) (p d : Path) (out : option file_object).

Lemma process_directory_unfold d (recursive : bool) out s :
  process_directory d recursive out s =
  try_except
    (for_in (call (enumerate recursive d)) (loop_body out))
    (fun e => match e with
              | OSErr e' => Some (logging_error (directory_failure_message d e'))
              | OtherException _ => None
              end) s.
Proof. unfold process_directory, enumerate. now destruct recursive. Qed.

Lemma quiet_call {A} (f : W -> A * W) (w : W) :
  snd (f w) = w -> f w = (fst (f w), w).
Proof. intros H. rewrite <- H at 3. apply surjective_pairing. Qed.

Lemma loop_body_quiet w out l tr p :
  quiet w -> sink_accepts out w ->
  loop_body out p (mkState w l tr) =
  (Ret tt, mkState w l (tr ++ entry_events w out l p)).
Proof.
  intros Q A.
  destruct Q as (_ & Qf & _ & Qs & _ & _ & _ & Qw & Qp & _).
  unfold loop_body, bind, is_file, call, entry_events. cbn [world].
  rewrite (quiet_call _ _ (Qf p)).
  destruct (fst (os_is_file p w)); cbn [logger_level trace].
  - pose proof (quiet_call _ _ (Qs p)) as Hs.
    destruct (fst (os_stat p w)) as [e|st].
    + now rewrite (process_file_stat_failure p out (mkState w l tr) _ _ Hs).
    + apply (process_file_written p out (mkState w l tr) _ _ _ Hs).
      destruct out as [f|]; cbn in A.
      * rewrite (quiet_call _ _ (Qw f _)). now rewrite A.
      * rewrite (quiet_call _ _ (Qp _)). now rewrite A.
  - now rewrite app_nil_r.
Qed.

Lemma for_each_quiet w out l ps :
  quiet w -> sink_accepts out w ->
  forall tr,
    for_each ps (loop_body out) (mkState w l tr) =
    (Ret tt, mkState w l (tr ++ flat_map (entry_events w out l) ps)).
Proof.
  intros Q A. induction ps as [|p ps IH]; intros tr; cbn [for_each flat_map].
  - now rewrite app_nil_r.
  - unfold bind at 1. rewrite (loop_body_quiet w out l tr p Q A).
    rewrite IH. now rewrite <- app_assoc.
Qed.

(** [process_directory] in a quiet world whose sink accepts: the entries
    are handled in order, then the error that ended the enumeration, if
    any, is logged; the call returns normally. *)
Lemma process_directory_quiet w d (recursive : bool) out l tr ps oe :
  quiet w -> sink_accepts out w ->
  fst (enumerate recursive d w) = (ps, oe) ->
  process_directory d recursive out (mkState w l tr) =
  (Ret tt, mkState w l (tr ++ flat_map (entry_events w out l) ps
                           ++ enumeration_events d oe)).
Proof.
  intros Q A E.
  assert (Hq : enumerate recursive d w = ((ps, oe), w)).
  { rewrite <- E. apply quiet_call.
    destruct Q as (_ & _ & _ & _ & Qi & Qr & _).
    unfold enumerate. destruct recursive; [apply Qr | apply Qi]. }
  rewrite process_directory_unfold.
  unfold try_except, for_in, bind at 1, call. cbn [world].
  rewrite Hq. cbn [logger_level trace fst snd].
  unfold bind. rewrite (for_each_quiet w out l ps Q A).
  destruct oe as [e|]; cbn.
  - rewrite logging_error_run. cbn. now rewrite <- app_assoc.
  - now rewrite app_nil_r.
Qed.

(** The data stream of the entry events is the lines of the entries that
    are files and whose status can be read. *)
Lemma output_of_app (a b : list event) :
  output_of (a ++ b) = (output_of a ++ output_of b)%list.
Proof.
  induction a as [|x a IH]; [reflexivity|].
  destruct x; cbn; now rewrite ?IH.
Qed.

Lemma logs_of_app (a b : list event) :
  logs_of (a ++ b) = (logs_of a ++ logs_of b)%list.
Proof.
  induction a as [|x a IH]; [reflexivity|].
  destruct x; cbn; now rewrite ?IH.
Qed.

Lemma output_of_warning l msg : output_of (warning_events l msg) = [].
Proof. unfold warning_events. now destruct (Z.leb _ _). Qed.

Lemma output_of_written out line : output_of [written out line] = [line].
Proof. now destruct out. Qed.

End DirectoryFacts.

(* ------------------------------------------------------------------ *)
(** ** What a program may add to the trace *)

Section Adds.
Context {P : Platform} {W : Type} {os : OS W}.
Implicit Types (s : state W) (p d : Path) (out : option file_object).

Variable Q : event -> Prop.

Lemma adds_ret {A} (a : A) : adds Q (ret (W:=W) a).
Proof.
  intros s r s' H. inversion H; subst. exists []. now rewrite app_nil_r.
Qed.

Lemma adds_raise {A} (e : exn) : adds Q (@raise W A e).
Proof.
  intros s r s' H. inversion H; subst. exists []. now rewrite app_nil_r.
Qed.

Lemma adds_bind {A B} (m : M W A) (k : A -> M W B) :
  adds Q m -> (forall a, adds Q (k a)) -> adds Q (bind m k).
Proof.
  intros Hm Hk s r s' H. unfold bind in H.
  destruct (m s) as [[a|e] s1] eqn:E.
  - destruct (Hm _ _ _ E) as (ev1 & T1 & F1).
    destruct (Hk a _ _ _ H) as (ev2 & T2 & F2).
    exists (ev1 ++ ev2)%list. split.
    + now rewrite T2, T1, app_assoc.
    + now apply Forall_app.
  - inversion H; subst. exact (Hm _ _ _ E).
Qed.

Lemma adds_try_except {A} (m : M W A) (h : exn -> option (M W A)) :
  adds Q m -> (forall e k, h e = Some k -> adds Q k) ->
  adds Q (try_except m h).
Proof.
  intros Hm Hh s r s' H. unfold try_except in H.
  destruct (m s) as [[a|e] s1] eqn:E.
  - inversion H; subst. exact (Hm _ _ _ E).
  - destruct (Hm _ _ _ E) as (ev1 & T1 & F1).
    destruct (h e) as [k|] eqn:Eh.
    + destruct (Hh e k Eh _ _ _ H) as (ev2 & T2 & F2).
      exists (ev1 ++ ev2)%list. split.
      * now rewrite T2, T1, app_assoc.
      * now apply Forall_app.
    + inversion H; subst. now exists ev1.
Qed.

Lemma adds_try_finally {A} (m : M W A) (c : M W unit) :
  adds Q m -> adds Q c -> adds Q (try_finally m c).
Proof.
  intros Hm Hc s r s' H. unfold try_finally in H.
  destruct (m s) as [r1 s1] eqn:E.
  destruct (Hm _ _ _ E) as (ev1 & T1 & F1).
  destruct (c s1) as [[u|e] s2] eqn:Ec;
    destruct (Hc _ _ _ Ec) as (ev2 & T2 & F2);
    inversion H; subst; exists (ev1 ++ ev2)%list;
    (split; [now rewrite T2, T1, app_assoc | now apply Forall_app]).
Qed.

Lemma adds_call {A} (f : W -> A * W) : adds Q (call f).
Proof.
  intros s r s' H. unfold call in H. destruct (f (world s)).
  inversion H; subst. exists []. cbn. now rewrite app_nil_r.
Qed.

Lemma adds_emit (ev : event) : Q ev -> adds Q (emit (W:=W) ev).
Proof.
  intros HQ s r s' H. inversion H; subst. exists [ev]. cbn. auto.
Qed.

Lemma adds_log (lvl : level) (msg : string) :
  Q (Log lvl msg) -> adds Q (logging_log (W:=W) lvl msg).
Proof.
  intros HQ s r s' H. unfold logging_log in H.
  destruct (Z.leb _ _).
  - exact (adds_emit _ HQ _ _ _ H).
  - inversion H; subst. exists []. now rewrite app_nil_r.
Qed.

Lemma adds_for_each (xs : list Path) (body : Path -> M W unit) :
  (forall x, adds Q (body x)) -> adds Q (for_each xs body).
Proof.
  intros Hb. induction xs as [|x xs IH]; cbn [for_each].
  - apply adds_ret.
  - apply adds_bind; auto.
Qed.

Lemma adds_for_in (gen : M W (list Path * option os_error))
      (body : Path -> M W unit) :
  adds Q gen -> (forall x, adds Q (body x)) -> adds Q (for_in gen body).
Proof.
  intros Hg Hb. unfold for_in.
  apply adds_bind; [assumption|]. intros g.
  apply adds_bind; [now apply adds_for_each|]. intros _.
  destruct (snd g); [apply adds_raise | apply adds_ret].
Qed.
End Adds.

Section Processing.
Context {P : Platform} {W : Type} {os : OS W}.
Implicit Types (s : state W) (p d : Path) (out : option file_object).

Lemma adds_get_file_metadata p : adds processing_event (get_file_metadata p).
Proof.
  unfold get_file_metadata, stat.
  apply adds_try_except.
  - apply adds_bind; [apply adds_bind; [apply adds_call|]|].
    + intros [e|st]; [apply adds_raise | apply adds_ret].
    + intros st. apply adds_ret.
  - intros e k Hk.
    destruct e as [[t|t|t]|t]; inversion Hk; subst;
      (apply adds_bind; [apply adds_log; constructor | intros; apply adds_ret]).
Qed.

Lemma process_file_outcome p out s r s' :
  process_file p out s = (r, s') ->
  exists evs, trace s' = (trace s ++ evs)%list /\ Forall processing_event evs.
Proof.
  unfold process_file, bind.
  destruct (get_file_metadata p s) as [[md|e] s1] eqn:E.
  - destruct (adds_get_file_metadata p _ _ _ E) as (ev1 & T1 & F1).
    destruct md as [md|].
    + (* the dictionary comes from a status *)
      assert (Hmd : exists st, md = metadata_of p st).
      { unfold get_file_metadata, try_except, stat, bind, call in E.
        destruct (os_stat p (world s)) as [[e'|st] w1].
        - cbn in E. destruct e'; rewrite logging_error_run in E; discriminate.
        - inversion E. now exists st. }
      destruct Hmd as (st & ->). fold (record_line p st).
      destruct out as [f|]; unfold try_except, write, print, bind, call.
      * destruct (os_write f (record_line p st) (world s1)) as [[e'|] w2];
          cbn; [rewrite logging_error_run|]; intros H; inversion H; subst;
          cbn; rewrite T1, <- app_assoc; eexists; split; try reflexivity;
          apply Forall_app; split; auto; repeat constructor.
      * destruct (os_print (record_line p st) (world s1)) as [[e'|] w2];
          cbn; intros H; inversion H; subst; cbn.
        -- exists ev1. auto.
        -- rewrite T1, <- app_assoc; eexists; split; try reflexivity.
           apply Forall_app; split; auto; repeat constructor.
    + intros H.
      assert (Hl : adds (W:=W) processing_event
                     (logging_warning ("Could not process file: " ++ path_str p)))
        by (apply adds_log; constructor).
      destruct (Hl _ _ _ H) as (ev2 & T2 & F2).
      exists (ev1 ++ ev2)%list. split.
      * now rewrite T2, T1, app_assoc.
      * now apply Forall_app.
  - intros H; inversion H; subst. exact (adds_get_file_metadata p _ _ _ E).
Qed.

Lemma adds_process_file p out : adds processing_event (process_file p out).
Proof. intros s r s'. apply process_file_outcome. Qed.

Lemma adds_loop_body out p : adds processing_event (loop_body out p).
Proof.
  unfold loop_body, is_file. apply adds_bind; [apply adds_call|].
  intros [|]; [apply adds_process_file | apply adds_ret].
Qed.

Lemma adds_process_directory d (recursive : bool) out :
  adds processing_event (process_directory d recursive out).
Proof.
  intros s r s'. rewrite process_directory_unfold. revert s r s'.
  apply adds_try_except.
  - apply adds_for_in; [apply adds_call | apply adds_loop_body].
  - intros e k Hk. destruct e as [e|t]; inversion Hk; subst.
    apply adds_log. constructor.
Qed.
End Processing.

(* ------------------------------------------------------------------ *)
(** ** Running the program: [main] *)

Section MainFacts.
Context {P : Platform} {W : Type} {os : OS W}.
Implicit Types (s : state W) (p d : Path) (out : option file_object).

Lemma main_path_missing args s w1 :
  os_exists (Path_of_string (Args.path args)) (world s) = (false, w1) ->
  main args s =
  (Ret ReturnPathMissing,
   mkState w1 (working_level args (logger_level s))
     (trace s ++ [Log ERROR ("Path does not exist: " ++ Args.path args)])).
Proof.
  intros H. unfold main, working_level, bind at 1.
  destruct (Args.verbose args); cbn [setLevel ret];
    unfold bind, exists_, call; cbn [world]; rewrite H; cbn [negb];
    rewrite logging_error_run; reflexivity.
Qed.

Lemma main_output_unopenable args s w1 name e w2 :
  os_exists (Path_of_string (Args.path args)) (world s) = (true, w1) ->
  output_requested (Args.output args) = Some name ->
  os_open name w1 = (Some e, w2) ->
  main args s =
  (Ret ReturnOutputUnopenable,
   mkState w2 (working_level args (logger_level s))
     (trace s ++ [Log ERROR ("Error opening output file: " ++ exn_str e)])).
Proof.
  intros H Ho Hopen. unfold main, working_level, bind at 1.
  destruct (Args.verbose args); cbn [setLevel ret];
    unfold bind at 1, exists_, call; cbn [world]; rewrite H; cbn [negb];
    rewrite Ho; unfold bind at 1, try_except, open_, bind, call; cbn [world];
    rewrite Hopen; cbn [raise]; rewrite logging_error_run; reflexivity.
Qed.

Lemma main_output_opened args s w1 name w2 :
  os_exists (Path_of_string (Args.path args)) (world s) = (true, w1) ->
  output_requested (Args.output args) = Some name ->
  os_open name w1 = (None, w2) ->
  main args s =
  processing args (Some name)
    (mkState w2 (working_level args (logger_level s))
       (trace s ++ [Opened name])).
Proof.
  intros H Ho Hopen. unfold main, working_level, bind at 1.
  destruct (Args.verbose args); cbn [setLevel ret];
    unfold bind at 1, exists_, call; cbn [world]; rewrite H; cbn [negb];
    rewrite Ho; unfold bind at 1, try_except, open_, bind at 1 2 3, call;
    cbn [world logger_level trace emit ret]; rewrite Hopen;
    cbn [world logger_level trace emit ret]; reflexivity.
Qed.

Lemma main_stdout args s w1 :
  os_exists (Path_of_string (Args.path args)) (world s) = (true, w1) ->
  output_requested (Args.output args) = None ->
  main args s =
  processing args None
    (mkState w1 (working_level args (logger_level s)) (trace s)).
Proof.
  intros H Ho. unfold main, working_level, bind at 1.
  destruct (Args.verbose args); cbn [setLevel ret];
    unfold bind at 1, exists_, call; cbn [world]; rewrite H; cbn [negb];
    rewrite Ho; reflexivity.
Qed.

Lemma adds_dispatch path (recursive : bool) out :
  adds processing_event (dispatch path recursive out).
Proof.
  unfold dispatch, is_file, is_dir.
  apply adds_bind; [apply adds_call|]. intros [|].
  - apply adds_process_file.
  - apply adds_bind; [apply adds_call|]. intros [|].
    + apply adds_process_directory.
    + apply adds_log. constructor.
Qed.
End MainFacts.

(* ------------------------------------------------------------------ *)
(** ** Every world of fixed answers is quiet *)

Lemma fixed_quiet {P : Platform} (w : Fixed.answers) : quiet w.
Proof. repeat split. Qed.

(* ------------------------------------------------------------------ *)
(** * Per-item failures *)


Lemma output_of_failure_events {P : Platform} l p e :
  output_of (failure_events l p e) = [].
Proof. cbn. apply output_of_warning. Qed.





(* ------------------------------------------------------------------ *)
(** * Serialization *)

Lemma adds_mono {W : Type} (Q Q' : event -> Prop) {A} (m : M W A) :
  (forall ev, Q ev -> Q' ev) -> adds Q m -> adds Q' m.
Proof.
  intros HQ Hm s r s' H. destruct (Hm _ _ _ H) as (evs & T & F).
  exists evs. split; [assumption|]. eapply Forall_impl; eauto.
Qed.

Lemma processing_carries_records {P : Platform} (ev : event) :
  processing_event ev -> carries_records ev.
Proof. intros [l m|f p st|p st]; cbn; unfold is_record_line; eauto. Qed.

Lemma adds_main {P : Platform} {W : Type} {os : OS W} (args : Args.t) :
  adds carries_records (main args).
Proof.
  unfold main.
  apply adds_bind.
  { destruct (Args.verbose args); [|apply adds_ret].
    intros s r s' H. inversion H; subst. exists []. cbn. now rewrite app_nil_r. }
  intros _. apply adds_bind; [apply adds_call|]. intros found.
  destruct found; cbn [negb].
  2:{ apply adds_bind; [now apply adds_log | intros; apply adds_ret]. }
  apply adds_bind.
  { destruct (output_requested (Args.output args)) as [name|]; [|apply adds_ret].
    apply adds_try_except.
    - unfold open_. apply adds_bind; [|intros; apply adds_ret].
      apply adds_bind; [apply adds_call|]. intros [e|].
      + apply adds_raise.
      + apply adds_bind; [now apply adds_emit | intros; apply adds_ret].
    - intros e k Hk. inversion Hk; subst.
      apply adds_bind; [now apply adds_log | intros; apply adds_ret]. }
  intros [out|]; [|apply adds_ret].
  apply adds_bind; [|intros; apply adds_ret].
  apply adds_try_finally.
  - apply (adds_mono processing_event); [apply processing_carries_records|].
    apply (adds_dispatch (Path_of_string (Args.path args))).
  - destruct out as [f|]; [|apply adds_ret].
    unfold close. apply adds_bind; [apply adds_call|]. intros r.
    apply adds_bind; [now apply adds_emit|]. intros _.
    destruct r; [apply adds_raise | apply adds_ret].
Qed.

Lemma carried_output {P : Platform} (evs : list event) :
  Forall carries_records evs -> Forall is_record_line (output_of evs).
Proof.
  induction 1 as [|ev evs Hev _ IH]; [constructor|].
  destruct ev; cbn in *; auto.
Qed.

(** Whatever the world answers, one call of [process_file] adds at most
    one line to the data stream, and a line it adds is the line of the
    record of its path. *)
Lemma process_file_lines {P : Platform} {W : Type} {os : OS W}
  (p : Path) (out : option file_object) (s : state W) :
  exists lines,
    output_of (trace (snd (process_file p out s))) =
      (output_of (trace s) ++ lines)%list /\
    (lines = [] \/ exists st, lines = [record_line p st]).
Proof.
  destruct (os_stat p (world s)) as [[e|st] w1] eqn:Hs.
  - rewrite (process_file_stat_failure p out s e w1 Hs). cbn [snd trace].
    exists []. rewrite output_of_app, output_of_failure_events. auto.
  - destruct out as [f|].
    + destruct (os_write f (record_line p st) w1) as [[e|] w2] eqn:Hw.
      * rewrite (process_file_write_failure p f s st w1 w2 e Hs Hw).
        cbn [snd trace]. exists []. rewrite output_of_app. auto.
      * rewrite (process_file_written p (Some f) s st w1 w2 Hs Hw).
        cbn [snd trace]. exists [record_line p st].
        rewrite output_of_app. eauto.
    + destruct (os_print (record_line p st) w1) as [[e|] w2] eqn:Hw.
      * rewrite (process_file_print_failure p s st w1 w2 e Hs Hw).
        cbn [snd trace]. exists []. rewrite app_nil_r. auto.
      * rewrite (process_file_written p None s st w1 w2 Hs Hw).
        cbn [snd trace]. exists [record_line p st].
        rewrite output_of_app. eauto.
Qed.

(** C3. Serialization format.  When the status of a path is read and the
    sink accepts the write, [process_file] returns normally having added
    exactly one event, the line of the record, to the trace; the data
    stream grows by that one line; the line is the nine fields joined by
    commas in the order modified, accessed, created time, path, name,
    size, permissions, owner uid, owner gid, followed by a newline.
    Whatever the world answers, a call of [process_file] adds no line or
    that one line, never more; and in every run of [main] every line of
    the data stream is such a record line: no header is ever written. *)
Theorem C3_serialization_format {P : Platform} {W : Type} {os : OS W}
  (p : Path) (out : option file_object) (s : state W)
  (st : stat_result timestamp) (w1 w2 : W) :
  os_stat p (world s) = (inr st, w1) ->
  match out with
  | Some f => os_write f (record_line p st) w1
  | None => os_print (record_line p st) w1
  end = (None, w2) ->
  fst (process_file p out s) = Ret tt /\
  trace (snd (process_file p out s)) =
    (trace s ++ [written out (record_line p st)])%list /\
  output_of (trace (snd (process_file p out s))) =
    (output_of (trace s) ++ [record_line p st])%list /\
  record_line p st =
    join ","
      [ isoformat (fromtimestamp (st_mtime st));
        isoformat (fromtimestamp (st_atime st));
        isoformat (fromtimestamp (st_ctime st));
        path_str p; path_name p; str_int (st_size st);
        Mode.filemode (st_mode st);
        str_int (st_uid st); str_int (st_gid st) ] ++ newline /\
  (forall (p' : Path) (out' : option file_object) (s' : state W),
      exists lines,
        output_of (trace (snd (process_file p' out' s'))) =
          (output_of (trace s') ++ lines)%list /\
        (lines = [] \/ exists st', lines = [record_line p' st'])) /\
  (forall (args : Args.t) (w : W),
      Forall is_record_line (output_of (trace (snd (run args w))))).
Proof.
  intros Hs Hw.
  rewrite (process_file_written p out s st w1 w2 Hs Hw). cbn [fst snd trace].
  split; [reflexivity|]. split; [reflexivity|]. split; [|split; [|split]].
  - rewrite output_of_app. now rewrite output_of_written.
  - unfold record_line. now rewrite output_string_join.
  - intros p' out' s'. apply process_file_lines.
  - intros args w. unfold run.
    destruct (main args (initial w)) as [r s'] eqn:E.
    destruct (adds_main args _ _ _ E) as (evs & T & F).
    cbn [snd]. rewrite T. cbn. now apply carried_output.
Qed.

Lemma C3_witness :
  output_of (trace (snd (process_file Example.a_txt None
                           (initial Example.vanishing)))) =
  ["2024-03-05T14:07:09,2024-03-05T14:07:09,2024-03-05T14:07:09,"
   ++ "data/a.txt,a.txt,12,-rw-r--r--,1000,1000" ++ newline].
Proof.
  destruct (C3_serialization_format (P := Example.utc) Example.a_txt None
              (initial Example.vanishing) (Example.regular 12 1709647629)
              Example.vanishing Example.vanishing)
    as (_ & _ & H & _); [reflexivity | reflexivity |].
  rewrite H. reflexivity.
Defined.

(* ------------------------------------------------------------------ *)
(** * Directory access failure *)



(* ------------------------------------------------------------------ *)
(** * Write failures *)

(** Writes to the output file are best effort: a failed write is logged,
    the record is dropped and [process_file] returns normally. *)
Lemma file_write_failure_is_absorbed {P : Platform} {W : Type} {os : OS W}
  (p : Path) (f : file_object) (s : state W) (st : stat_result timestamp)
  (w1 w2 : W) (e : exn) :
  os_stat p (world s) = (inr st, w1) ->
  os_write f (record_line p st) w1 = (Some e, w2) ->
  fst (process_file p (Some f) s) = Ret tt /\
  output_of (trace (snd (process_file p (Some f) s))) = output_of (trace s) /\
  logs_of (trace (snd (process_file p (Some f) s))) =
    (logs_of (trace s)
       ++ [(ERROR, ("Error writing to output file: " ++ exn_str e)%string)])%list.
Proof.
  intros Hs Hw. rewrite (process_file_write_failure p f s st w1 w2 e Hs Hw).
  cbn [fst snd trace]. rewrite output_of_app, logs_of_app. cbn.
  now rewrite app_nil_r.
Qed.

(** C6, at the failing inputs.  With standard output as the sink and a
    write that fails: on a directory of two readable files, a failure in
    the [OSError] family on the first write ends the traversal — it is
    logged as a failure to access the directory, and the second file is
    never written; on a single file the exception leaves [main], whether
    it is an [OSError] or not. *)
Theorem C6_stdout_write_failure_is_not_absorbed :
  run (Args.mk "data" false None false)
      (Example.refusing_stdout Example.broken_pipe) =
  (Ret EndOfMain,
   mkState (Example.refusing_stdout Example.broken_pipe) INFO
     [Log ERROR "Error accessing directory data: [Errno 32] Broken pipe"]) /\
  fst (run (Args.mk "data/a.txt" false None false)
           (Example.refusing_stdout Example.broken_pipe)) =
  Raise Example.broken_pipe /\
  fst (run (Args.mk "data/a.txt" false None false)
           (Example.refusing_stdout Example.unencodable)) =
  Raise Example.unencodable.
Proof. repeat split; vm_compute; reflexivity. Qed.

(* ------------------------------------------------------------------ *)
(** * Validation and the run as a whole *)

Section RunFacts.
Context {P : Platform} {W : Type} {os : OS W}.


Lemma run_cases (args : Args.t) (w : W) :
  (path_missing args w /\
   exists w', run args w =
     (Ret ReturnPathMissing,
      mkState w' (working_level args INFO)
        [Log ERROR ("Path does not exist: " ++ Args.path args)])) \/
  (~ path_missing args w /\ output_unopenable args w /\
   exists w' e, run args w =
     (Ret ReturnOutputUnopenable,
      mkState w' (working_level args INFO)
        [Log ERROR ("Error opening output file: " ++ exn_str e)])) \/
  (~ path_missing args w /\ ~ output_unopenable args w /\
   exists w' name,
     output_requested (Args.output args) = Some name /\
     run args w =
     processing args (Some name)
       (mkState w' (working_level args INFO) [Opened name])) \/
  (~ path_missing args w /\ ~ output_unopenable args w /\
   output_requested (Args.output args) = None /\
   exists w', run args w =
     processing args None (mkState w' (working_level args INFO) [])).
Proof.
  unfold path_missing, output_unopenable, run.
  destruct (os_exists (Path_of_string (Args.path args)) w) as [found w1] eqn:E.
  cbn [fst snd]. destruct found.
  - right.
    destruct (output_requested (Args.output args)) as [name|] eqn:Eo.
    + destruct (os_open name w1) as [[e|] w2] eqn:Eopen.
      * left. split; [discriminate|]. split.
        -- exists name, e. rewrite Eopen. auto.
        -- exists w2, e.
           apply (main_output_unopenable args (initial w) w1 name e w2 E Eo Eopen).
      * right; left. split; [discriminate|]. split.
        -- intros (n & e & Hn & He). inversion Hn; subst.
           rewrite Eopen in He. discriminate.
        -- exists w2, name. split; [reflexivity|].
           apply (main_output_opened args (initial w) w1 name w2 E Eo Eopen).
    + right; right. split; [discriminate|]. split.
      * intros (n & e & Hn & _). discriminate.
      * split; [reflexivity|]. exists w1.
        apply (main_stdout args (initial w) w1 E Eo).
  - left. split; [reflexivity|]. exists w1.
    apply (main_path_missing args (initial w) w1 E).
Qed.
End RunFacts.


(* ------------------------------------------------------------------ *)
(** * The output file handle *)

Lemma count_opened_app (a b : list event) :
  count_opened (a ++ b) = count_opened a + count_opened b.
Proof.
  induction a as [|x a IH]; [reflexivity|]. destruct x; cbn; now rewrite ?IH.
Qed.

Lemma count_closed_app (a b : list event) :
  count_closed (a ++ b) = count_closed a + count_closed b.
Proof.
  induction a as [|x a IH]; [reflexivity|]. destruct x; cbn; now rewrite ?IH.
Qed.

Lemma processing_events_keep_handle {P : Platform} (evs : list event) :
  Forall processing_event evs ->
  count_opened evs = 0 /\ count_closed evs = 0.
Proof.
  induction 1 as [|ev evs Hev _ IH]; [auto|].
  destruct Hev; cbn; exact IH.
Qed.

(** With the file open, the run from the [try] on adds the events of
    handling files and then exactly one [Closed], however it ends. *)
Lemma processing_with_file {P : Platform} {W : Type} {os : OS W}
  (args : Args.t) (f : file_object) (s : state W) :
  exists mid,
    trace (snd (processing args (Some f) s)) = (trace s ++ mid ++ [Closed f])%list /\
    Forall processing_event mid.
Proof.
  unfold processing, bind, try_finally.
  destruct (dispatch _ _ _ s) as [r1 s1] eqn:E.
  destruct (adds_dispatch _ _ _ _ _ _ E) as (mid & T & F).
  exists mid. split; [|exact F].
  unfold closing, close, bind, call, emit.
  destruct (os_close f (world s1)) as [[e|] w2]; destruct r1;
    cbn; rewrite T; now rewrite <- app_assoc.
Qed.

Lemma processing_without_file {P : Platform} {W : Type} {os : OS W}
  (args : Args.t) (s : state W) :
  exists mid,
    trace (snd (processing args None s)) = (trace s ++ mid)%list /\
    Forall processing_event mid.
Proof.
  unfold processing, bind, try_finally.
  destruct (dispatch _ _ _ s) as [r1 s1] eqn:E.
  destruct (adds_dispatch _ _ _ _ _ _ E) as (mid & T & F).
  exists mid. split; [|exact F].
  cbn. destruct r1; exact T.
Qed.

(** C9. Output-handle lifecycle.  In every run, however it ends: either
    the trace holds no open and no close at all, or an output file was
    asked for and the trace is its opening, then events of handling
    files, then its closing as the last event.  So the file is opened at
    most once, closed as often as it was opened, in every prefix of the
    run at most as often, and when opened, closed precisely at the end. *)
Theorem C9_output_handle_lifecycle {P : Platform} {W : Type} {os : OS W}
  (args : Args.t) (w : W) :
  ((count_opened (trace (snd (run args w))) = 0 /\
    count_closed (trace (snd (run args w))) = 0) \/
   (exists name mid,
      output_requested (Args.output args) = Some name /\
      trace (snd (run args w)) = (Opened name :: mid ++ [Closed name])%list /\
      count_opened mid = 0 /\ count_closed mid = 0)) /\
  count_opened (trace (snd (run args w))) <= 1 /\
  count_closed (trace (snd (run args w))) =
    count_opened (trace (snd (run args w))) /\
  (forall pre post,
      trace (snd (run args w)) = (pre ++ post)%list ->
      count_closed pre <= count_opened pre).
Proof.
  assert (S : (count_opened (trace (snd (run args w))) = 0 /\
               count_closed (trace (snd (run args w))) = 0) \/
              (exists name mid,
                 output_requested (Args.output args) = Some name /\
                 trace (snd (run args w)) = (Opened name :: mid ++ [Closed name])%list /\
                 count_opened mid = 0 /\ count_closed mid = 0)).
  { destruct (run_cases args w)
      as [(Hm & w' & R) | [(Hm & Hu & w' & e & R) |
          [(Hm & Hu & w' & name & Ho & R) | (Hm & Hu & Ho & w' & R)]]].
    - left. rewrite R. cbn. auto.
    - left. rewrite R. cbn. auto.
    - right. rewrite R.
      destruct (processing_with_file args name
                  (mkState w' (working_level args INFO) [Opened name]))
        as (mid & T & F).
      exists name, mid. split; [exact Ho|]. split; [exact T|].
      now apply processing_events_keep_handle.
    - left. rewrite R.
      destruct (processing_without_file args
                  (mkState w' (working_level args INFO) []))
        as (mid & T & F).
      rewrite T. cbn. now apply processing_events_keep_handle. }
  split; [exact S|].
  destruct S as [(Ho & Hc) | (name & mid & _ & T & Ho & Hc)].
  - rewrite Ho, Hc. repeat split; try lia.
    intros pre post E.
    assert (Hc' : count_closed (pre ++ post) = 0) by now rewrite <- E.
    rewrite count_closed_app in Hc'. lia.
  - rewrite T. cbn. rewrite count_opened_app, count_closed_app. cbn.
    rewrite Ho, Hc. repeat split; try lia.
    intros pre post E.
    destruct pre as [|ev pre]; [cbn; lia|].
    cbn in E. inversion E; subst ev. cbn.
    destruct (app_eq_app _ _ _ _ H1) as (l & [[E1 E2] | [E1 E2]]).
    + assert (Hmid : count_closed (pre ++ l) = 0) by now rewrite <- E1.
      rewrite count_closed_app in Hmid. lia.
    + (* [pre] reaches into the closing event *)
      subst pre. rewrite count_closed_app, count_opened_app, Hc, Ho.
      destruct l as [|x l]; [cbn; lia|].
      cbn in E2. inversion E2; subst.
      destruct l; [cbn; lia | discriminate].
Qed.

(* ------------------------------------------------------------------ *)
(** * The verbose flag *)

Section Verbosity.
Context {P : Platform} {W : Type} {os : OS W}.

Lemma blind_ret {A} (a : A) : level_blind (ret (W:=W) a).
Proof. intros w tr. split; reflexivity. Qed.

Lemma blind_raise {A} (e : exn) : level_blind (@raise W A e).
Proof. intros w tr. split; reflexivity. Qed.

Lemma blind_call {A} (f : W -> A * W) : level_blind (call f).
Proof. intros w tr. unfold call. cbn. destruct (f w). split; reflexivity. Qed.

Lemma blind_emit (ev : event) : level_blind (emit (W:=W) ev).
Proof. intros w tr. split; reflexivity. Qed.

(** The program logs at [WARNING] and [ERROR] only; both levels pass
    either logger level. *)
Lemma blind_log (lvl : level) (msg : string) :
  lvl = WARNING \/ lvl = ERROR -> level_blind (logging_log (W:=W) lvl msg).
Proof. intros [->| ->] w tr; split; reflexivity. Qed.

Lemma blind_bind {A B} (m : M W A) (k : A -> M W B) :
  level_blind m -> (forall a, level_blind (k a)) -> level_blind (bind m k).
Proof.
  intros Hm Hk w tr. unfold bind.
  destruct (Hm w tr) as (L & D). rewrite D.
  destruct (m (mkState w INFO tr)) as [[a|e] s1]; cbn [fst snd] in *.
  - destruct s1 as [w1 l1 tr1]; cbn in L; subst l1. apply Hk.
  - split; [exact L | reflexivity].
Qed.

Lemma blind_try_except {A} (m : M W A) (h : exn -> option (M W A)) :
  level_blind m -> (forall e k, h e = Some k -> level_blind k) ->
  level_blind (try_except m h).
Proof.
  intros Hm Hh w tr. unfold try_except.
  destruct (Hm w tr) as (L & D). rewrite D.
  destruct (m (mkState w INFO tr)) as [[a|e] s1]; cbn [fst snd] in *.
  - split; [exact L | reflexivity].
  - destruct (h e) as [k|] eqn:E.
    + destruct s1 as [w1 l1 tr1]; cbn in L; subst l1. now apply (Hh e).
    + split; [exact L | reflexivity].
Qed.

Lemma blind_try_finally {A} (m : M W A) (c : M W unit) :
  level_blind m -> level_blind c -> level_blind (try_finally m c).
Proof.
  intros Hm Hc w tr. unfold try_finally.
  destruct (Hm w tr) as (L & D). rewrite D.
  destruct (m (mkState w INFO tr)) as [r s1]; cbn [fst snd] in *.
  destruct s1 as [w1 l1 tr1]; cbn in L; subst l1. cbn [world trace].
  destruct (Hc w1 tr1) as (L' & D'). rewrite D'.
  destruct (c (mkState w1 INFO tr1)) as [[u|e] s2];
    cbn [fst snd] in *; split; auto.
Qed.

Lemma blind_for_each (xs : list Path) (body : Path -> M W unit) :
  (forall x, level_blind (body x)) -> level_blind (for_each xs body).
Proof.
  intros Hb. induction xs as [|x xs IH]; cbn [for_each].
  - apply blind_ret.
  - apply blind_bind; auto.
Qed.

Lemma blind_process_file (p : Path) (out : option file_object) :
  level_blind (process_file p out).
Proof.
  unfold process_file. apply blind_bind.
  - unfold get_file_metadata, stat. apply blind_try_except.
    + apply blind_bind; [apply blind_bind; [apply blind_call|]|].
      * intros [e|st]; [apply blind_raise | apply blind_ret].
      * intros st. apply blind_ret.
    + intros e k Hk.
      destruct e as [[t|t|t]|t]; inversion Hk; subst;
        (apply blind_bind; [apply blind_log; auto | intros; apply blind_ret]).
  - intros [md|].
    + destruct out as [f|].
      * apply blind_try_except.
        -- unfold write. apply blind_bind; [apply blind_call|].
           intros [e|]; [apply blind_raise | apply blind_emit].
        -- intros e k Hk. inversion Hk; subst. apply blind_log; auto.
      * unfold print. apply blind_bind; [apply blind_call|].
        intros [e|]; [apply blind_raise | apply blind_emit].
    + apply blind_log; auto.
Qed.

Lemma blind_process_directory (d : Path) (recursive : bool)
      (out : option file_object) :
  level_blind (process_directory d recursive out).
Proof.
  intros w tr. rewrite !process_directory_unfold. revert w tr.
  apply blind_try_except.
  - unfold for_in. apply blind_bind; [apply blind_call|]. intros g.
    apply blind_bind.
    + apply blind_for_each. intros x. unfold loop_body, is_file.
      apply blind_bind; [apply blind_call|].
      intros [|]; [apply blind_process_file | apply blind_ret].
    + intros _. destruct (snd g); [apply blind_raise | apply blind_ret].
  - intros e k Hk. destruct e as [e|t]; inversion Hk; subst.
    apply blind_log; auto.
Qed.

Lemma blind_processing (args : Args.t) (out : option file_object) :
  level_blind (processing args out).
Proof.
  unfold processing. apply blind_bind; [|intros; apply blind_ret].
  apply blind_try_finally.
  - unfold dispatch, is_file, is_dir.
    apply blind_bind; [apply blind_call|]. intros [|].
    + apply blind_process_file.
    + apply blind_bind; [apply blind_call|]. intros [|].
      * apply blind_process_directory.
      * apply blind_log; auto.
  - destruct out as [f|]; [|apply blind_ret].
    unfold closing, close. apply blind_bind; [apply blind_call|]. intros r.
    apply blind_bind; [apply blind_emit|]. intros _.
    destruct r; [apply blind_raise | apply blind_ret].
Qed.
End Verbosity.

(** C8. Verbose noninterference.  For every path, recursive flag, output
    destination and world, the run with the verbose flag and the run
    without it end alike (same return or same exception), leave the world
    in the same state and produce the same trace: the same data stream,
    the same opening and closing of the output file and even the same log
    records.  They differ in the level of the logger alone. *)
Theorem C8_verbose_noninterference {P : Platform} {W : Type} {os : OS W}
  (path : string) (recursive : bool) (output : option string) (w : W) :
  fst (run (Args.mk path recursive output true) w) =
  fst (run (Args.mk path recursive output false) w) /\
  world (snd (run (Args.mk path recursive output true) w)) =
  world (snd (run (Args.mk path recursive output false) w)) /\
  trace (snd (run (Args.mk path recursive output true) w)) =
  trace (snd (run (Args.mk path recursive output false) w)) /\
  output_of (trace (snd (run (Args.mk path recursive output true) w))) =
  output_of (trace (snd (run (Args.mk path recursive output false) w))) /\
  logger_level (snd (run (Args.mk path recursive output true) w)) = DEBUG /\
  logger_level (snd (run (Args.mk path recursive output false) w)) = INFO.
Proof.
  set (v := Args.mk path recursive output true).
  set (q := Args.mk path recursive output false).
  assert (K : fst (run v w) = fst (run q w) /\
              world (snd (run v w)) = world (snd (run q w)) /\
              trace (snd (run v w)) = trace (snd (run q w)) /\
              logger_level (snd (run v w)) = DEBUG /\
              logger_level (snd (run q w)) = INFO).
  { unfold run.
    destruct (os_exists (Path_of_string path) w) as [found w1] eqn:E.
    destruct found.
    - destruct (output_requested output) as [name|] eqn:Eo.
      + destruct (os_open name w1) as [[e|] w2] eqn:Eopen.
        * rewrite (main_output_unopenable v (initial w) w1 name e w2 E Eo Eopen).
          rewrite (main_output_unopenable q (initial w) w1 name e w2 E Eo Eopen).
          cbn. auto.
        * rewrite (main_output_opened v (initial w) w1 name w2 E Eo Eopen).
          rewrite (main_output_opened q (initial w) w1 name w2 E Eo Eopen).
          cbn [working_level Args.verbose v q initial logger_level trace app].
          change (processing v (Some name)) with (processing q (Some name)).
          destruct (blind_processing q (Some name) w2 [Opened name]) as (L & D).
          rewrite D. cbn. auto.
      + rewrite (main_stdout v (initial w) w1 E Eo).
        rewrite (main_stdout q (initial w) w1 E Eo).
        cbn [working_level Args.verbose v q initial logger_level trace].
        change (processing v None) with (processing q None).
        destruct (blind_processing q None w1 []) as (L & D).
        rewrite D. cbn. auto.
    - rewrite (main_path_missing v (initial w) w1 E).
      rewrite (main_path_missing q (initial w) w1 E).
      cbn. auto. }
  destruct K as (K1 & K2 & K3 & K4 & K5).
  repeat split; auto. now rewrite K3.
Qed.

(* ------------------------------------------------------------------ *)
(** * Traversal of a directory tree *)

Section TreeFacts.
Import Tree TreeSpec.
Context {P : Platform}.

Section NodeInduction.
Variable Q : node -> Prop.
Hypothesis HFile : forall st, Q (File st).
Hypothesis HDir : forall st es, Forall (fun e => Q (snd e)) es -> Q (Dir st es).
Hypothesis HSymlink : forall own t, Q t -> Q (Symlink own t).
Hypothesis HDangling : forall own, Q (Dangling own).

Fixpoint node_induction (n : node) : Q n :=
  match n with
  | File st => HFile st
  | Dir st es =>
      HDir st es
        ((fix all (es : list (string * node)) : Forall (fun e => Q (snd e)) es :=
            match es with
            | [] => Forall_nil _
            | e :: es' => Forall_cons e (node_induction (snd e)) (all es')
            end) es)
  | Symlink own t => HSymlink own t (node_induction t)
  | Dangling own => HDangling own
  end.
End NodeInduction.

Lemma walk_Dir (p : Path) st (es : list (string * node)) :
  walk p (Dir st es) =
  (children p es ++ flat_map (fun e => walk (child p (fst e)) (snd e)) es)%list.
Proof.
  cbn [walk]. f_equal.
  induction es as [|[name c] es IH]; [reflexivity|].
  cbn [flat_map fst snd]. now rewrite IH.
Qed.

Lemma well_formed_Dir st (es : list (string * node)) :
  well_formed (Dir st es) = true ->
  Mode.S_ISDIR (st_mode st) = true /\
  names_unique (map fst es) = true /\
  Forall (fun e => well_formed (snd e) = true) es.
Proof.
  cbn [well_formed]. intros H.
  apply andb_prop in H. destruct H as [H Hall].
  apply andb_prop in H. destruct H as [Hd Hn].
  repeat split; auto.
  clear Hn. induction es as [|[name c] es IH]; [constructor|].
  apply andb_prop in Hall. destruct Hall as [Hc Hall].
  constructor; auto.
Qed.

Lemma names_unique_NoDup (names : list string) :
  names_unique names = true -> NoDup names.
Proof.
  induction names as [|x rest IH]; cbn; intros H; [constructor|].
  apply andb_prop in H. destruct H as [Hx Hr].
  constructor; [|auto].
  intros Hin. apply negb_true_iff in Hx.
  assert (E : existsb (String.eqb x) rest = true).
  { apply existsb_exists. exists x. split; [assumption|]. apply String.eqb_refl. }
  congruence.
Qed.

Lemma lookup_unique (es : list (string * node)) name c :
  NoDup (map fst es) -> In (name, c) es -> lookup name es = Some c.
Proof.
  induction es as [|[k n] es IH]; cbn; intros Hnd Hin; [contradiction|].
  inversion Hnd as [|? ? Hk Hnd']; subst.
  destruct Hin as [E|Hin].
  - inversion E; subst. now rewrite String.eqb_refl.
  - destruct (String.eqb k name) eqn:Ek; [|auto].
    apply String.eqb_eq in Ek. subst k. exfalso. apply Hk.
    apply in_map_iff. now exists (name, c).
Qed.
Lemma locate_app (n : node) (ps qs : list string) :
  locate n (ps ++ qs) =
  match locate n ps with
  | inr m => locate m qs
  | inl b => inl b
  end.
Proof.
  revert n. induction ps as [|c ps IH]; intros n; [reflexivity|].
  cbn [app locate].
  destruct (follow n) as [[st|st es|own t|own]|]; try reflexivity.
  destruct (lookup c es); [apply IH | reflexivity].
Qed.

Lemma resolve_holds (root : node) (p : Path) (n : node) :
  resolve root p = inr n <-> holds root p n.
Proof.
  unfold resolve, holds. split.
  - destruct (locate root (parts p)) as [[|]|n0]; try discriminate.
    destruct (follow n0) eqn:E; [|discriminate].
    intros H; inversion H; subst. eauto.
  - intros (n0 & -> & ->). reflexivity.
Qed.

Lemma entry_located (root : node) (p : Path) st es name c :
  holds root p (Dir st es) -> NoDup (map fst es) -> In (name, c) es ->
  locate root (parts (child p name)) = inr c.
Proof.
  intros (n0 & Hl & Hf) Hnd Hin. cbn [child parts].
  rewrite locate_app, Hl. cbn [locate]. rewrite Hf.
  now rewrite (lookup_unique es name c Hnd Hin).
Qed.

Lemma below_located (root : node) (p : Path) (D : node) (q : Path) (c : node) :
  below p D q c -> well_formed D = true -> holds root p D ->
  locate root (parts q) = inr c.
Proof.
  induction 1 as [p st es name c Hin | p st es name sst ses q c Hin Hb IH];
    intros Hwf Hh;
    destruct (well_formed_Dir _ _ Hwf) as (_ & Hn & Hall);
    apply names_unique_NoDup in Hn.
  - now apply entry_located with (st := st) (es := es).
  - apply IH.
    + rewrite Forall_forall in Hall. exact (Hall _ Hin).
    + exists (Dir sst ses). split; [|reflexivity].
      now apply entry_located with (st := st) (es := es).
Qed.

Lemma located_is_file (root : node) (q : Path) (c : node) :
  locate root (parts q) = inr c -> is_file_of root q = is_regular c.
Proof.
  intros H. unfold is_file_of, stat_of, resolve, is_regular. rewrite H.
  now destruct (follow c).
Qed.

(** Membership in the walk is membership in the subtree. *)
Lemma walk_complete (p : Path) (n : node) (q : Path) (c : node) :
  below p n q c -> In q (walk p n).
Proof.
  induction 1 as [p st es name c Hin | p st es name sst ses q c Hin Hb IH];
    rewrite walk_Dir; apply in_or_app.
  - left. unfold children. apply in_map_iff. now exists (name, c).
  - right. apply in_flat_map. now exists (name, Dir sst ses).
Qed.

Lemma walk_sound (n : node) :
  forall (p q : Path), In q (walk p n) -> exists c, below p n q c.
Proof.
  induction n as [st|st es IH|own t IH|own] using node_induction;
    intros p q Hin; try (cbn in Hin; contradiction).
  rewrite walk_Dir in Hin. apply in_app_or in Hin. destruct Hin as [Hin|Hin].
  - unfold children in Hin. apply in_map_iff in Hin.
    destruct Hin as ([name c] & <- & Hin). exists c. now constructor.
  - apply in_flat_map in Hin. destruct Hin as ([name c] & He & Hin).
    rewrite Forall_forall in IH. cbn [fst snd] in Hin.
    destruct (IH _ He _ _ Hin) as (c' & Hb).
    exists c'. destruct c as [cst|cst ces|cown ct|cown];
      try (inversion Hb; fail).
    now apply below_deeper with (name := name) (sub_st := cst) (sub_es := ces).
Qed.




Lemma well_formed_follow (n m : node) :
  well_formed n = true -> follow n = Some m -> well_formed m = true.
Proof.
  induction n as [st|st es _|own t IH|own] using node_induction;
    cbn [follow]; intros Hwf Hf; try (inversion Hf; subst; assumption).
  now apply IH.
Qed.

Lemma well_formed_lookup (es : list (string * node)) name c :
  Forall (fun e => well_formed (snd e) = true) es ->
  lookup name es = Some c -> well_formed c = true.
Proof.
  induction es as [|[k n] es IH]; cbn; intros Hall Hl; [discriminate|].
  inversion Hall; subst.
  destruct (String.eqb k name); [inversion Hl; subst|]; auto.
Qed.

Lemma well_formed_locate (ps : list string) :
  forall n m, well_formed n = true -> locate n ps = inr m ->
              well_formed m = true.
Proof.
  induction ps as [|c ps IH]; intros n m Hwf Hl; cbn [locate] in Hl.
  - now inversion Hl; subst.
  - destruct (follow n) as [[st|st es|own t|own]|] eqn:Ef; try discriminate.
    destruct (lookup c es) as [n'|] eqn:El; [|discriminate].
    apply (IH n' m); [|assumption].
    pose proof (well_formed_follow _ _ Hwf Ef) as Hd.
    destruct (well_formed_Dir _ _ Hd) as (_ & _ & Hall).
    now apply well_formed_lookup with (es := es) (name := c).
Qed.

Lemma well_formed_holds (root : node) (p : Path) (n : node) :
  well_formed root = true -> holds root p n -> well_formed n = true.
Proof.
  intros Hwf (n0 & Hl & Hf).
  apply well_formed_follow with (n := n0); [|assumption].
  now apply well_formed_locate with (ps := parts p) (n := root).
Qed.
Lemma tree_quiet (root : node) : quiet root.
Proof. repeat split. Qed.

Lemma tree_sink_accepts (out : option file_object) (root : node) :
  sink_accepts out root.
Proof. destruct out; intros d; reflexivity. Qed.

Lemma is_file_stat (root : node) (p : Path) :
  is_file_of root p = true -> exists st, stat_of root p = inr st.
Proof.
  unfold is_file_of. destruct (stat_of root p) as [e|st]; [discriminate|].
  eauto.
Qed.

Lemma tree_events_output (root : node) out l (ps : list Path) :
  map Some (output_of (flat_map (entry_events root out l) ps)) =
  map (record_at root) (filter (is_file_of root) ps).
Proof.
  induction ps as [|p ps IH]; [reflexivity|].
  cbn [flat_map filter]. rewrite output_of_app, map_app, IH.
  unfold entry_events. cbn [os_is_file os_stat tree_os fst].
  destruct (is_file_of root p) eqn:E; [|reflexivity].
  destruct (is_file_stat _ _ E) as (st & Hs).
  rewrite Hs, output_of_written. cbn [map app]. f_equal.
  unfold record_at. now rewrite Hs.
Qed.

Lemma logs_of_written out line : logs_of [written out line] = [].
Proof. now destruct out. Qed.

Lemma tree_events_logs (root : node) out l (ps : list Path) :
  logs_of (flat_map (entry_events root out l) ps) = [].
Proof.
  induction ps as [|p ps IH]; [reflexivity|].
  cbn [flat_map]. rewrite logs_of_app, IH, app_nil_r.
  unfold entry_events. cbn [os_is_file os_stat tree_os fst].
  destruct (is_file_of root p) eqn:E; [|reflexivity].
  destruct (is_file_stat _ _ E) as (st & Hs). rewrite Hs.
  apply logs_of_written.
Qed.

(** The enumeration of a path that resolves to a directory. *)
Lemma enumerate_directory (root : node) (d : Path) st es (recursive : bool) :
  resolve root d = inr (Dir st es) ->
  fst (enumerate recursive d root) =
  (if recursive then walk d (Dir st es) else children d es, None).
Proof.
  intros H. unfold enumerate. cbn [os_rglob os_iterdir tree_os fst].
  unfold rglob_of, iterdir_of. rewrite H. now destruct recursive.
Qed.

Lemma selected_directory (root : node) (d : Path) st es (recursive : bool) :
  resolve root d = inr (Dir st es) ->
  selected root recursive d =
  filter (is_file_of root)
         (if recursive then walk d (Dir st es) else children d es).
Proof.
  intros H. unfold selected, rglob_of, iterdir_of. rewrite H.
  now destruct recursive.
Qed.

Lemma listed_located (root : node) (recursive : bool) (d : Path) (D : node)
      (q : Path) (c : node) :
  well_formed D = true -> holds root d D -> listed recursive d D q c ->
  locate root (parts q) = inr c.
Proof.
  intros Hwf Hh Hl. destruct recursive; cbn [listed] in Hl.
  - now apply below_located with (p := d) (D := D).
  - destruct Hl as [p st es name c Hin].
    destruct (well_formed_Dir _ _ Hwf) as (_ & Hn & _).
    apply names_unique_NoDup in Hn.
    now apply entry_located with (st := st) (es := es).
Qed.

Lemma listed_enumerated (recursive : bool) (d : Path) st es (q : Path) :
  In q (if recursive then walk d (Dir st es) else children d es) <->
  exists c, listed recursive d (Dir st es) q c.
Proof.
  destruct recursive; cbn [listed]; split.
  - apply walk_sound.
  - intros (c & H). now apply walk_complete with (c := c).
  - unfold children. intros H. apply in_map_iff in H.
    destruct H as ([name c] & <- & Hin). exists c. now constructor.
  - intros (c & H). inversion H; subst. unfold children.
    apply in_map_iff. now exists (name, c).
Qed.

Lemma selected_iff (root : node) (recursive : bool) (d : Path) st es (q : Path) :
  well_formed root = true ->
  resolve root d = inr (Dir st es) ->
  In q (selected root recursive d) <->
  exists c, listed recursive d (Dir st es) q c /\ is_regular c = true.
Proof.
  intros Hwf Hr. rewrite (selected_directory _ _ _ _ _ Hr).
  pose proof (proj1 (resolve_holds _ _ _) Hr) as Hh.
  pose proof (well_formed_holds _ _ _ Hwf Hh) as HwfD.
  rewrite filter_In, listed_enumerated. split.
  - intros ((c & Hl) & Hf). exists c. split; [assumption|].
    now rewrite <- (located_is_file root q c
                      (listed_located _ _ _ _ _ _ HwfD Hh Hl)).
  - intros (c & Hl & Hreg). split; [eauto|].
    now rewrite (located_is_file root q c
                   (listed_located _ _ _ _ _ _ HwfD Hh Hl)).
Qed.



(** The run of [process_directory] on a directory of the tree. *)
Lemma tree_process_directory (root : node) (d : Path) st es
      (recursive : bool) (out : option file_object) (l : level)
      (tr : list event) :
  resolve root d = inr (Dir st es) ->
  exists evs,
    process_directory d recursive out (mkState root l tr) =
    (Ret tt, mkState root l (tr ++ evs)) /\
    map Some (output_of evs) = map (record_at root) (selected root recursive d) /\
    logs_of evs = [].
Proof.
  intros Hr.
  pose proof (enumerate_directory root d st es recursive Hr) as He.
  exists (flat_map (entry_events root out l)
            (if recursive then walk d (Dir st es) else children d es)).
  split; [|split].
  - rewrite (process_directory_quiet root d recursive out l tr _ None
               (tree_quiet root) (tree_sink_accepts out root) He).
    cbn [enumeration_events]. now rewrite app_nil_r.
  - rewrite tree_events_output. now rewrite (selected_directory _ _ _ _ _ Hr).
  - apply tree_events_logs.
Qed.
End TreeFacts.

Lemma in_map_Some {A} (x : A) (l : list A) : In (Some x) (map Some l) -> In x l.
Proof.
  intros H. apply in_map_iff in H. destruct H as (y & E & Hy).
  now inversion E; subst.
Qed.



(** C10. Symbolic links are followed.  On a well-formed tree, for a
    directory traversed by [process_directory]: nothing is logged; an
    entry that is a link ending at a regular file is selected, the status
    the program reads at the path of the link is the status of the node
    the link ends at, and the data stream holds the line made of the path
    of the link and that status; an entry that is a link to nowhere is
    not selected and does not pass [is_file]. *)
Theorem C10_symlinks_are_followed {P : Platform}
  (root : Tree.node) (d : Path) (st : stat_result timestamp)
  (es : list (string * Tree.node)) (recursive : bool)
  (out : option file_object) (l : level) (tr : list event) :
  TreeSpec.well_formed root = true ->
  Tree.resolve root d = inr (Tree.Dir st es) ->
  exists evs,
    process_directory d recursive out (mkState root l tr) =
    (Ret tt, mkState root l (tr ++ evs)) /\
    logs_of evs = [] /\
    (forall q own target tn,
        TreeSpec.listed recursive d (Tree.Dir st es) q (Tree.Symlink own target) ->
        Tree.follow target = Some tn ->
        Mode.S_ISREG (st_mode (Tree.node_stat tn)) = true ->
        In q (TreeSpec.selected root recursive d) /\
        Tree.stat_of root q = inr (Tree.node_stat tn) /\
        In (record_line q (Tree.node_stat tn)) (output_of evs) /\
        file_path (metadata_of q (Tree.node_stat tn)) = path_str q /\
        file_name (metadata_of q (Tree.node_stat tn)) = path_name q /\
        file_size (metadata_of q (Tree.node_stat tn)) =
          st_size (Tree.node_stat tn)) /\
    (forall q own,
        TreeSpec.listed recursive d (Tree.Dir st es) q (Tree.Dangling own) ->
        Tree.is_file_of root q = false /\
        ~ In q (TreeSpec.selected root recursive d)).
Proof.
  intros Hwf Hr.
  destruct (tree_process_directory root d st es recursive out l tr Hr)
    as (evs & Hrun & Hout & Hlog).
  pose proof (proj1 (resolve_holds _ _ _) Hr) as Hh.
  pose proof (well_formed_holds _ _ _ Hwf Hh) as HwfD.
  exists evs. split; [exact Hrun|]. split; [exact Hlog|]. split.
  - intros q own target tn Hl Hf Hreg.
    pose proof (listed_located _ _ _ _ _ _ HwfD Hh Hl) as L.
    assert (Hs : Tree.stat_of root q = inr (Tree.node_stat tn)).
    { unfold Tree.stat_of, Tree.resolve. rewrite L. cbn [Tree.follow].
      now rewrite Hf. }
    assert (Hsel : In q (TreeSpec.selected root recursive d)).
    { apply (selected_iff root recursive d st es q Hwf Hr).
      exists (Tree.Symlink own target). split; [assumption|].
      unfold TreeSpec.is_regular. cbn [Tree.follow]. now rewrite Hf. }
    repeat split; auto.
    apply in_map_Some. rewrite Hout. apply in_map_iff. exists q.
    split; [|assumption]. unfold TreeSpec.record_at. now rewrite Hs.
  - intros q own Hl.
    pose proof (listed_located _ _ _ _ _ _ HwfD Hh Hl) as L.
    assert (Hf : Tree.is_file_of root q = false).
    { rewrite (located_is_file root q _ L). reflexivity. }
    split; [exact Hf|]. intros Hin.
    rewrite (selected_directory _ _ _ _ _ Hr) in Hin.
    apply filter_In in Hin. destruct Hin as (_ & Hin). congruence.
Qed.

Lemma C10_witness :
  exists evs,
    process_directory Example.data false None (mkState Example.tree INFO []) =
    (Ret tt, mkState Example.tree INFO ([] ++ evs)) /\
    logs_of evs = [] /\
    In ("2024-03-05T14:07:09,2024-03-05T14:07:09,2024-03-05T14:07:09,"
        ++ "data/link.txt,link.txt,12,-rw-r--r--,1000,1000" ++ newline)
       (output_of evs) /\
    ~ In (child Example.data "broken")
         (TreeSpec.selected Example.tree false Example.data).
Proof.
  destruct (C10_symlinks_are_followed (P := Example.utc) Example.tree
              Example.data Example.dir_status Example.data_entries
              false None INFO [])
    as (evs & Hrun & Hlog & Hlink & Hdangling); [reflexivity | reflexivity |].
  exists evs. split; [exact Hrun|]. split; [exact Hlog|]. split.
  - destruct (Hlink (child Example.data "link.txt") Example.link_status
                Example.a_node Example.a_node)
      as (_ & _ & Hin & _).
    + constructor. cbn. auto 10.
    + reflexivity.
    + reflexivity.
    + exact Hin.
  - destruct (Hdangling (child Example.data "broken") Example.link_status)
      as (_ & Hn); [|exact Hn].
    constructor. cbn. auto 10.
Defined.

(* ------------------------------------------------------------------ *)
(** * Columns of a line *)

Lemma contains_char_append (c : ascii) (a b : string) :
  contains_char c (a ++ b) = contains_char c a || contains_char c b.
Proof.
  induction a as [|x a IH]; [reflexivity|].
  cbn. rewrite IH. now rewrite orb_assoc.
Qed.

Lemma split_on_free (c : ascii) (a : string) :
  contains_char c a = false -> split_on c a = [a].
Proof.
  induction a as [|x a IH]; [reflexivity|].
  cbn. intros H. apply orb_false_elim in H. destruct H as [Hx Ha].
  rewrite Hx, (IH Ha). reflexivity.
Qed.

Lemma split_on_field (c : ascii) (a b : string) :
  contains_char c a = false ->
  split_on c (a ++ String c b) = a :: split_on c b.
Proof.
  induction a as [|x a IH]; intros H.
  - cbn. now rewrite Ascii.eqb_refl.
  - cbn in *. apply orb_false_elim in H. destruct H as [Hx Ha].
    rewrite Hx, (IH Ha). reflexivity.
Qed.

(** Decimal digits. *)
Lemma digit_char_cases (n : Z) :
  In (digit_char n) ["0"; "1"; "2"; "3"; "4"; "5"; "6"; "7"; "8"; "9"]%char.
Proof.
  unfold digit_char.
  assert (H : (Z.to_nat (n mod 10) < 10)%nat).
  { pose proof (Z.mod_pos_bound n 10). lia. }
  destruct (Z.to_nat (n mod 10)) as [|[|[|[|[|[|[|[|[|[|k]]]]]]]]]];
    cbn; try lia; auto 12.
Qed.

Lemma digit_char_not_comma (n : Z) : Ascii.eqb (digit_char n) comma = false.
Proof.
  destruct (digit_char_cases n)
    as [<-|[<-|[<-|[<-|[<-|[<-|[<-|[<-|[<-|[<-|[]]]]]]]]]]]; reflexivity.
Qed.

Lemma digit_value_char (n : Z) :
  digit_value (digit_char n) = Some (n mod 10)%Z.
Proof.
  unfold digit_char.
  assert (H : (0 <= n mod 10 < 10)%Z) by (apply Z.mod_pos_bound; lia).
  rewrite <- (Z2Nat.id (n mod 10)) at 2 by lia.
  assert (Hm : (Z.to_nat (n mod 10) < 10)%nat) by lia.
  destruct (Z.to_nat (n mod 10)) as [|[|[|[|[|[|[|[|[|[|k]]]]]]]]]];
    try reflexivity; lia.
Qed.

Lemma zpad_no_comma (w : nat) (n : Z) : contains_char comma (zpad w n) = false.
Proof.
  revert n. induction w as [|w IH]; intros n; [reflexivity|].
  cbn [zpad]. rewrite contains_char_append, IH. cbn [contains_char orb].
  now rewrite digit_char_not_comma.
Qed.

Lemma isoformat_no_comma (d : datetime) :
  contains_char comma (isoformat d) = false.
Proof.
  unfold isoformat.
  destruct (Z.eqb (microsecond d) 0);
    rewrite !contains_char_append, !zpad_no_comma; reflexivity.
Qed.

Lemma string_of_uint_no_comma (u : Decimal.uint) :
  contains_char comma (NilEmpty.string_of_uint u) = false.
Proof. induction u; cbn; auto. Qed.

Lemma str_int_no_comma (n : Z) : contains_char comma (str_int n) = false.
Proof.
  unfold str_int, NilZero.string_of_int, NilZero.string_of_uint.
  destruct (Z.to_int n) as [u|u];
    destruct u; cbn; auto using string_of_uint_no_comma.
Qed.

Lemma pick_not_comma (table : list (Z * ascii)) (mode : Z) :
  Forall (fun e => Ascii.eqb (snd e) comma = false) table ->
  Ascii.eqb (Mode.pick table mode) comma = false.
Proof.
  induction 1 as [|[bit ch] table Hc _ IH]; cbn; [reflexivity|].
  now destruct (Z.eqb _ _).
Qed.

Lemma filemode_no_comma (mode : Z) :
  contains_char comma (Mode.filemode mode) = false.
Proof.
  unfold Mode.filemode, Mode.filemode_table.
  cbn [map string_of_list_ascii contains_char].
  repeat (rewrite pick_not_comma; [cbn [orb] | repeat constructor]).
  reflexivity.
Qed.

Lemma newline_no_comma : contains_char comma newline = false.
Proof. reflexivity. Qed.

(** A comma-free path has a comma-free name. *)
Lemma join_part_no_comma (sep : string) (ps : list string) (x : string) :
  In x ps -> contains_char comma (join sep ps) = false ->
  contains_char comma x = false.
Proof.
  induction ps as [|y ps IH]; intros Hin H; [contradiction|].
  destruct ps as [|z ps].
  - destruct Hin as [<-|[]]. exact H.
  - cbn [join] in H. rewrite !contains_char_append in H.
    apply orb_false_elim in H. destruct H as [Hy H].
    apply orb_false_elim in H. destruct H as [_ H].
    destruct Hin as [<-|Hin]; [exact Hy | now apply IH].
Qed.

Lemma last_In {A} (l : list A) (d : A) : l <> [] -> In (last l d) l.
Proof.
  induction l as [|x l IH]; [congruence|]. intros _.
  destruct l as [|y l]; [now left|]. right. apply IH. discriminate.
Qed.

Lemma path_name_no_comma (p : Path) :
  contains_char comma (path_str p) = false ->
  contains_char comma (path_name p) = false.
Proof.
  unfold path_str, path_name. intros H.
  destruct (parts p) as [|x ps] eqn:E; [reflexivity|].
  assert (Hin : In (last (x :: ps) "") (x :: ps)) by (apply last_In; discriminate).
  destruct (absolute p).
  - rewrite contains_char_append in H. apply orb_false_elim in H.
    destruct H as [_ H]. exact (join_part_no_comma "/" _ _ Hin H).
  - exact (join_part_no_comma "/" _ _ Hin H).
Qed.

(** Reading [w] digits is reading [w - 1] digits and then one. *)
Lemma read_digits_last (w : nat) :
  forall (acc : Z) (s : string),
    read_digits (S w) acc s =
    obind (read_digits w acc s) (fun '(a, s') => read_digits 1 a s').
Proof.
  induction w as [|w IH]; intros acc s; [reflexivity|].
  destruct s as [|c s']; [reflexivity|].
  change (read_digits (S (S w)) acc (String c s'))
    with (match digit_value c with
          | Some v => read_digits (S w) (10 * acc + v) s'
          | None => None
          end).
  change (read_digits (S w) acc (String c s'))
    with (match digit_value c with
          | Some v => read_digits w (10 * acc + v) s'
          | None => None
          end).
  destruct (digit_value c); [apply IH | reflexivity].
Qed.

Lemma read_digits_zpad (w : nat) :
  forall (n acc : Z) (rest : string),
    (0 <= n < 10 ^ Z.of_nat w)%Z ->
    read_digits w acc (zpad w n ++ rest) =
    Some ((acc * 10 ^ Z.of_nat w + n)%Z, rest).
Proof.
  induction w as [|w IH]; intros n acc rest Hn.
  - cbn. f_equal. f_equal. change (10 ^ Z.of_nat 0)%Z with 1%Z in Hn. lia.
  - rewrite read_digits_last. cbn [zpad]. rewrite append_assoc.
    rewrite Nat2Z.inj_succ, Z.pow_succ_r in * by lia.
    rewrite IH by (split; [apply Z.div_pos; lia | apply Z.div_lt_upper_bound; lia]).
    cbn [obind append read_digits]. rewrite digit_value_char.
    f_equal. f_equal. pose proof (Z.div_mod n 10). lia.
Qed.

Lemma read_field (w : nat) (n : Z) (rest : string) :
  (0 <= n < 10 ^ Z.of_nat w)%Z ->
  read_digits w 0 (zpad w n ++ rest) = Some (n, rest).
Proof. intros H. rewrite read_digits_zpad by assumption. now rewrite Z.mul_0_l. Qed.

Lemma expect_here (c : ascii) (s : string) :
  expect c (String c "" ++ s) = Some s.
Proof. cbn. now rewrite Ascii.eqb_refl. Qed.

(** What [isoformat] writes, [fromisoformat] reads back. *)
Lemma fromisoformat_isoformat (d : datetime) :
  valid_datetime d -> fromisoformat (isoformat d) = Some d.
Proof.
  intros (Hy & Hmo & Hd & Hh & Hmi & Hs & Hus).
  destruct d as [y mo dd h mi se us].
  cbn [year month day hour minute second microsecond] in *.
  unfold fromisoformat, isoformat.
  cbn [year month day hour minute second microsecond].
  rewrite read_field by (change (10 ^ Z.of_nat 4)%Z with 10000%Z; lia).
  cbn [obind]. rewrite expect_here. cbn [obind].
  rewrite read_field by (change (10 ^ Z.of_nat 2)%Z with 100%Z; lia).
  cbn [obind]. rewrite expect_here. cbn [obind].
  rewrite read_field by (change (10 ^ Z.of_nat 2)%Z with 100%Z; lia).
  cbn [obind]. rewrite expect_here. cbn [obind].
  rewrite read_field by (change (10 ^ Z.of_nat 2)%Z with 100%Z; lia).
  cbn [obind]. rewrite expect_here. cbn [obind].
  rewrite read_field by (change (10 ^ Z.of_nat 2)%Z with 100%Z; lia).
  cbn [obind]. rewrite expect_here. cbn [obind].
  rewrite read_field by (change (10 ^ Z.of_nat 2)%Z with 100%Z; lia).
  cbn [obind].
  assert (R : in_range 1 9999 y && in_range 1 12 mo && in_range 1 31 dd &&
              in_range 0 23 h && in_range 0 59 mi && in_range 0 59 se = true).
  { unfold in_range.
    repeat (apply andb_true_intro; split); apply Z.leb_le; lia. }
  destruct (Z.eqb us 0) eqn:E.
  - apply Z.eqb_eq in E. subst us. cbn [obind]. now rewrite R.
  - change ("." ++ zpad 6 us) with (String "."%char (zpad 6 us)).
    cbv iota. change (String "."%char (zpad 6 us)) with (String "."%char "" ++ zpad 6 us).
    rewrite expect_here. cbn [obind].
    rewrite <- (append_nil_r (zpad 6 us)).
    rewrite read_field by (change (10 ^ Z.of_nat 6)%Z with 1000000%Z; lia).
    cbn [obind]. now rewrite R.
Qed.

Lemma comma_append (s : string) : "," ++ s = String comma s.
Proof. reflexivity. Qed.

(** The columns of the line of a path without a comma. *)
Lemma columns_record_line {P : Platform} (p : Path) (st : stat_result timestamp) :
  contains_char comma (path_str p) = false ->
  columns (record_line p st) =
  [ isoformat (fromtimestamp (st_mtime st));
    isoformat (fromtimestamp (st_atime st));
    isoformat (fromtimestamp (st_ctime st));
    path_str p; path_name p; str_int (st_size st);
    Mode.filemode (st_mode st); str_int (st_uid st);
    str_int (st_gid st) ++ newline ].
Proof.
  intros Hp. pose proof (path_name_no_comma p Hp) as Hn.
  unfold columns, record_line, output_string, metadata_of.
  cbn [modified_time accessed_time created_time file_path file_name
       file_size permissions owner_uid owner_gid].
  rewrite !comma_append.
  rewrite split_on_field by apply isoformat_no_comma.
  rewrite split_on_field by apply isoformat_no_comma.
  rewrite split_on_field by apply isoformat_no_comma.
  rewrite split_on_field by assumption.
  rewrite split_on_field by assumption.
  rewrite split_on_field by apply str_int_no_comma.
  rewrite split_on_field by apply filemode_no_comma.
  rewrite split_on_field by apply str_int_no_comma.
  rewrite split_on_free; [reflexivity|].
  rewrite contains_char_append, str_int_no_comma. reflexivity.
Qed.

(** C7, as amended.  For every path whose text holds no comma and every
    status, the line written splits at commas into exactly nine columns —
    the nine fields, the last with the newline — and each of the three
    timestamp columns reads back, as an ISO date and time, to the
    calendar value it was made from. *)
Theorem C7_nine_columns_without_commas {P : Platform}
  (p : Path) (st : stat_result timestamp) :
  contains_char comma (path_str p) = false ->
  List.length (columns (record_line p st)) = 9 /\
  columns (record_line p st) =
  [ isoformat (fromtimestamp (st_mtime st));
    isoformat (fromtimestamp (st_atime st));
    isoformat (fromtimestamp (st_ctime st));
    path_str p; path_name p; str_int (st_size st);
    Mode.filemode (st_mode st); str_int (st_uid st);
    str_int (st_gid st) ++ newline ] /\
  fromisoformat (nth 0 (columns (record_line p st)) "") =
    Some (fromtimestamp (st_mtime st)) /\
  fromisoformat (nth 1 (columns (record_line p st)) "") =
    Some (fromtimestamp (st_atime st)) /\
  fromisoformat (nth 2 (columns (record_line p st)) "") =
    Some (fromtimestamp (st_ctime st)).
Proof.
  intros Hp. rewrite (columns_record_line p st Hp). cbn [List.length nth].
  repeat split; apply fromisoformat_isoformat, fromtimestamp_valid.
Qed.

Lemma C7_witness :
  List.length (columns (record_line (P := Example.utc) Example.a_txt
                     (Example.regular 12 1709647629))) = 9 /\
  fromisoformat
    (nth 0 (columns (record_line (P := Example.utc) Example.a_txt
                       (Example.regular 12 1709647629))) "") =
  Some (mkDatetime 2024 3 5 14 7 9 0).
Proof.
  destruct (C7_nine_columns_without_commas (P := Example.utc) Example.a_txt
              (Example.regular 12 1709647629))
    as (H9 & _ & Hm & _); [reflexivity|].
  split; [exact H9 | exact Hm].
Defined.

(** C7 as stated fails: the line of a file whose name holds a comma has
    eleven columns, the comma being written once in the path and once in
    the name. *)
Lemma C7_counterexample :
  let p := mkPath false ["data"; "a,b.txt"] in
  output_of (trace (snd (process_file p None (initial Example.with_locked)))) =
    [record_line (P := Example.utc) p (Example.regular 340 1709647700)] /\
  List.length (columns (record_line (P := Example.utc) p
                     (Example.regular 340 1709647700))) = 11 /\
  List.length (columns (record_line (P := Example.utc) p
                     (Example.regular 340 1709647700))) <> 9.
Proof.
  cbv zeta. split; [reflexivity|]. split; [reflexivity|].
  vm_compute. discriminate.
Qed.

(* ------------------------------------------------------------------ *)
(** * Further properties of the program *)

(** ** Vocabulary and worlds *)


(** An event of a run whose sink is [out]: a log record, the opening or
    closing of that output file, or a record line written to that sink. *)
Inductive sink_event {P : Platform} (out : option file_object) : event -> Prop :=
| se_log l msg : sink_event out (Log l msg)
| se_opened f : out = Some f -> sink_event out (Opened f)
| se_closed f : out = Some f -> sink_event out (Closed f)
| se_written p st : sink_event out (written out (record_line p st)).

(** The events around the processing of a run that got past validation. *)
Definition opening_events (out : option file_object) : list event :=
  match out with Some f => [Opened f] | None => [] end.

Definition closing_events (out : option file_object) : list event :=
  match out with Some f => [Closed f] | None => [] end.

(** How a run that handled its files without an exception ends in a
    quiet world [w]: at the end of [main], unless closing the output file
    raises. *)
Definition end_of_run {P : Platform} {W : Type} {os : OS W}
  (out : option file_object) (w : W) : outcome exit_path :=
  match out with
  | Some f =>
      match fst (os_close f w) with
      | None => Ret EndOfMain
      | Some e => Raise e
      end
  | None => Ret EndOfMain
  end.

Module Cases.
Import Example.




(** A path that exists and is neither a file nor a directory (a socket,
    a device). *)
Definition only_a_socket : Fixed.answers := {|
  Fixed.a_exists := fun _ => true;
  Fixed.a_is_file := fun _ => false;
  Fixed.a_is_dir := fun _ => false;
  Fixed.a_stat := fun _ => inr socket_status;
  Fixed.a_iterdir := fun _ => ([], Some (OSError "[Errno 20] Not a directory"));
  Fixed.a_rglob := fun _ => ([], None);
  Fixed.a_open := fun _ => None;
  Fixed.a_write := fun _ _ => None;
  Fixed.a_print := fun _ => None;
  Fixed.a_close := fun _ => None
|}.
End Cases.

(** ** Exceptions that cannot leave *)

Section Containment.
Context {P : Platform} {W : Type} {os : OS W}.
Implicit Types (s : state W) (p d : Path) (f : file_object).


(** X1. No [OSError] leaves [process_directory]: whatever the world
    answers, whichever sink is used and whatever the loop does, the call
    returns normally or raises an exception outside the [OSError]
    family. *)
Theorem process_directory_contains_os_errors d (recursive : bool)
  (out : option file_object) s (e : os_error) :
  fst (process_directory d recursive out s) <> Raise (OSErr e).
Proof.
  rewrite process_directory_unfold. unfold try_except.
  destruct (for_in _ _ s) as [[u|[e'|t]] s1].
  - discriminate.
  - rewrite logging_error_run. discriminate.
  - discriminate.
Qed.




End Containment.


(** ** Best-effort writes to the output file *)

Section BestEffort.
Context {P : Platform} {W : Type} {os : OS W}.
Implicit Types (s : state W) (p d : Path) (f : file_object).






End BestEffort.


(** ** One sink per run *)

Section OneSink.
Context {P : Platform} {W : Type} {os : OS W}.
Implicit Types (s : state W) (p d : Path) (out : option file_object).

Lemma adds_sink_process_file p out : adds (sink_event out) (process_file p out).
Proof.
  intros s r s' H.
  destruct (os_stat p (world s)) as [[e|st] w1] eqn:Hs.
  - rewrite (process_file_stat_failure p out s e w1 Hs) in H.
    inversion H; subst. eexists. split; [reflexivity|].
    unfold failure_events, warning_events.
    destruct (Z.leb _ _); repeat constructor.
  - destruct out as [f|].
    + destruct (os_write f (record_line p st) w1) as [[e|] w2] eqn:Hw.
      * rewrite (process_file_write_failure p f s st w1 w2 e Hs Hw) in H.
        inversion H; subst. eexists. split; [reflexivity|].
        repeat constructor.
      * rewrite (process_file_written p (Some f) s st w1 w2 Hs Hw) in H.
        inversion H; subst. eexists. split; [reflexivity|].
        constructor; [|constructor].
        apply (se_written (Some f) p st).
    + destruct (os_print (record_line p st) w1) as [[e|] w2] eqn:Hw.
      * rewrite (process_file_print_failure p s st w1 w2 e Hs Hw) in H.
        inversion H; subst. exists []. cbn. now rewrite app_nil_r.
      * rewrite (process_file_written p None s st w1 w2 Hs Hw) in H.
        inversion H; subst. eexists. split; [reflexivity|].
        constructor; [|constructor].
        apply (se_written None p st).
Qed.

Lemma adds_sink_process_directory d (recursive : bool) out :
  adds (sink_event out) (process_directory d recursive out).
Proof.
  intros s r s'. rewrite process_directory_unfold. revert s r s'.
  apply adds_try_except.
  - apply adds_for_in; [apply adds_call|]. intros x.
    unfold loop_body, is_file. apply adds_bind; [apply adds_call|].
    intros [|]; [apply adds_sink_process_file | apply adds_ret].
  - intros e k Hk. destruct e as [e|t]; inversion Hk; subst.
    apply adds_log. constructor.
Qed.

Lemma adds_sink_processing (args : Args.t) out :
  adds (sink_event out) (processing args out).
Proof.
  unfold processing. apply adds_bind; [|intros; apply adds_ret].
  apply adds_try_finally.
  - unfold dispatch, is_file, is_dir.
    apply adds_bind; [apply adds_call|]. intros [|].
    + apply adds_sink_process_file.
    + apply adds_bind; [apply adds_call|]. intros [|].
      * apply adds_sink_process_directory.
      * apply adds_log. constructor.
  - destruct out as [f|]; [|apply adds_ret].
    unfold closing, close. apply adds_bind; [apply adds_call|]. intros r.
    apply adds_bind; [apply adds_emit; now constructor|]. intros _.
    destruct r; [apply adds_raise | apply adds_ret].
Qed.

Lemma run_sink_events (args : Args.t) (w : W) :
  Forall (sink_event (output_requested (Args.output args)))
         (trace (snd (run args w))).
Proof.
  destruct (run_cases args w)
    as [(_ & w' & R) | [(_ & _ & w' & e' & R) |
        [(_ & _ & w' & name & Ho & R) | (_ & _ & Ho & w' & R)]]].
  - rewrite R. cbn. repeat constructor.
  - rewrite R. cbn. repeat constructor.
  - rewrite Ho.
    destruct (processing args (Some name)
                (mkState w' (working_level args INFO) [Opened name]))
      as [r s'] eqn:E.
    rewrite R.
    destruct (adds_sink_processing args (Some name) _ _ _ E) as (evs & T & F).
    cbn [snd]. rewrite T. cbn [trace]. constructor; [now constructor|exact F].
  - rewrite Ho.
    destruct (processing args None (mkState w' (working_level args INFO) []))
      as [r s'] eqn:E.
    rewrite R.
    destruct (adds_sink_processing args None _ _ _ E) as (evs & T & F).
    cbn [snd]. rewrite T. exact F.
Qed.

(** X5. One sink per run.  In every run of [main], however it ends: data
    is written to a file only under the name given with the output
    option, and then nothing is written to standard output; without the
    option — or with an empty name, which counts as none — no file is
    opened, closed or written. *)
Theorem run_writes_to_one_sink (args : Args.t) (w : W) :
  (forall f data, In (FileWrite f data) (trace (snd (run args w))) ->
     Args.output args = Some f /\ f <> "") /\
  (forall data, In (StdoutWrite data) (trace (snd (run args w))) ->
     Args.output args = None \/ Args.output args = Some "") /\
  (forall f, In (Opened f) (trace (snd (run args w))) \/
             In (Closed f) (trace (snd (run args w))) ->
     Args.output args = Some f /\ f <> "").
Proof.
  pose proof (run_sink_events args w) as F. rewrite Forall_forall in F.
  assert (R : forall f, output_requested (Args.output args) = Some f ->
                        Args.output args = Some f /\ f <> "").
  { intros f H. destruct (Args.output args) as [[|c n]|]; cbn in H;
      inversion H; subst; split; auto; discriminate. }
  assert (N : output_requested (Args.output args) = None ->
              Args.output args = None \/ Args.output args = Some "").
  { intros H. destruct (Args.output args) as [[|c n]|]; cbn in H;
      auto; discriminate. }
  split; [|split].
  - intros f data Hin. apply R. specialize (F _ Hin).
    inversion F as [| | |p st Hw].
    destruct (output_requested (Args.output args)); cbn in Hw;
      [now inversion Hw | discriminate].
  - intros data Hin. apply N. specialize (F _ Hin).
    inversion F as [| | |p st Hw].
    destruct (output_requested (Args.output args)); cbn in Hw;
      [discriminate | reflexivity].
  - intros f [Hin|Hin]; apply R; specialize (F _ Hin); inversion F; auto.
    + destruct (output_requested (Args.output args)); discriminate.
    + destruct (output_requested (Args.output args)); discriminate.
Qed.
End OneSink.

(** ** Whole runs in a quiet world *)

Section WholeRuns.
Context {P : Platform} {W : Type} {os : OS W}.
Implicit Types (s : state W) (p d : Path) (out : option file_object).

(** Past validation: the run is the processing, started after the
    opening of the output file. *)
Lemma run_quiet_processing (args : Args.t) (w : W) :
  quiet w ->
  fst (os_exists (Path_of_string (Args.path args)) w) = true ->
  (forall name, output_requested (Args.output args) = Some name ->
                fst (os_open name w) = None) ->
  run args w =
  processing args (output_requested (Args.output args))
    (mkState w (working_level args INFO)
       (opening_events (output_requested (Args.output args)))).
Proof.
  intros Q He Hopen.
  destruct Q as (Qe & _ & _ & _ & _ & _ & Qo & _).
  pose proof (quiet_call _ _ (Qe (Path_of_string (Args.path args)))) as E.
  rewrite He in E. unfold run.
  destruct (output_requested (Args.output args)) as [name|] eqn:Ho.
  - pose proof (quiet_call _ _ (Qo name)) as Eo.
    rewrite (Hopen name eq_refl) in Eo.
    exact (main_output_opened args (initial w) w name w E Ho Eo).
  - exact (main_stdout args (initial w) w E Ho).
Qed.

Lemma processing_quiet (args : Args.t) out (w : W) (l : level)
      (tr evs : list event) :
  quiet w ->
  dispatch (Path_of_string (Args.path args)) (Args.recursive args) out
    (mkState w l tr) = (Ret tt, mkState w l (tr ++ evs)) ->
  processing args out (mkState w l tr) =
  (end_of_run out w, mkState w l (tr ++ evs ++ closing_events out)).
Proof.
  intros Q D. unfold processing, bind, try_finally. rewrite D.
  destruct out as [f|]; cbn [closing end_of_run closing_events].
  - destruct Q as (_ & _ & _ & _ & _ & _ & _ & _ & _ & Qc).
    unfold close, bind, call, emit. cbn [world logger_level trace].
    rewrite (quiet_call _ _ (Qc f)).
    destruct (fst (os_close f w)); cbn; now rewrite <- app_assoc.
  - cbn. now rewrite app_nil_r.
Qed.

Lemma dispatch_quiet (path : Path) (recursive : bool) out (w : W)
      (l : level) (tr : list event) :
  quiet w ->
  dispatch path recursive out (mkState w l tr) =
  if fst (os_is_file path w) then process_file path out (mkState w l tr)
  else if fst (os_is_dir path w)
       then process_directory path recursive out (mkState w l tr)
       else logging_error "Invalid path type.  Must be a file or directory."
              (mkState w l tr).
Proof.
  intros Q. destruct Q as (_ & Qf & Qd & _).
  unfold dispatch, bind, is_file, is_dir, call. cbn [world logger_level trace].
  rewrite (quiet_call _ _ (Qf path)).
  destruct (fst (os_is_file path w)); [reflexivity|].
  cbn [world logger_level trace]. rewrite (quiet_call _ _ (Qd path)).
  now destruct (fst (os_is_dir path w)).
Qed.




(** X8. A path that is neither a file nor a directory.  In a quiet world
    where the path exists but is a socket, a device or the like, the run
    writes no data and logs one error, "Invalid path type"; an output
    file that was asked for is nevertheless opened and closed, so it is
    left empty. *)
Theorem run_on_other_path (args : Args.t) (w : W) :
  quiet w ->
  fst (os_exists (Path_of_string (Args.path args)) w) = true ->
  fst (os_is_file (Path_of_string (Args.path args)) w) = false ->
  fst (os_is_dir (Path_of_string (Args.path args)) w) = false ->
  (forall name, output_requested (Args.output args) = Some name ->
                fst (os_open name w) = None) ->
  run args w =
  (end_of_run (output_requested (Args.output args)) w,
   mkState w (working_level args INFO)
     (opening_events (output_requested (Args.output args)) ++
      [Log ERROR "Invalid path type.  Must be a file or directory."] ++
      closing_events (output_requested (Args.output args)))) /\
  output_of (trace (snd (run args w))) = [].
Proof.
  intros Q He Hf Hd Hopen.
  set (out := output_requested (Args.output args)) in *.
  assert (R : run args w =
    (end_of_run out w,
     mkState w (working_level args INFO)
       (opening_events out ++
        [Log ERROR "Invalid path type.  Must be a file or directory."] ++
        closing_events out))).
  { rewrite (run_quiet_processing args w Q He Hopen). fold out.
    apply processing_quiet; [exact Q|].
    rewrite (dispatch_quiet _ _ _ _ _ _ Q), Hf, Hd.
    now rewrite logging_error_run. }
  split; [exact R|]. rewrite R. cbn [snd trace].
  rewrite !output_of_app. destruct out; reflexivity.
Qed.
End WholeRuns.



Lemma run_on_other_path_witness :
  trace (snd (run (Args.mk "/run/app.sock" false (Some "out.csv") false)
                  Cases.only_a_socket)) =
  [Opened "out.csv";
   Log ERROR "Invalid path type.  Must be a file or directory.";
   Closed "out.csv"].
Proof.
  destruct (run_on_other_path (P := Example.utc)
              (Args.mk "/run/app.sock" false (Some "out.csv") false)
              Cases.only_a_socket)
    as (H & _).
  - apply fixed_quiet.
  - reflexivity.
  - reflexivity.
  - reflexivity.
  - intros name Hn. reflexivity.
  - rewrite H. reflexivity.
Defined.

(** ** Whole runs on a directory tree *)

Section TreeRuns.
Import Tree TreeSpec.
Context {P : Platform}.


End TreeRuns.



(** ** The status of one file *)


(** ** One record, one line *)

(** The character that ends a line. *)
Definition line_feed : ascii := ascii_of_nat 10.

Section Lacks.
(** A character [c] that no formatted field can hold: not a digit, not
    one of the signs of a number or a date, not a letter of the mode
    string. *)
Variable c : ascii.
Hypothesis c_no_digit : forall n, Ascii.eqb (digit_char n) c = false.
Hypothesis c_no_decimal :
  forall u, contains_char c (NilEmpty.string_of_uint u) = false.
Hypothesis c_no_sign : contains_char c "-T:.0" = false.
Hypothesis c_no_mode_letter :
  Forall (Forall (fun e : Z * ascii => Ascii.eqb (snd e) c = false))
         Mode.filemode_table.

Lemma zpad_lacks (w : nat) (n : Z) : contains_char c (zpad w n) = false.
Proof.
  revert n. induction w as [|w IH]; intros n; [reflexivity|].
  cbn [zpad]. rewrite contains_char_append, IH. cbn [contains_char orb].
  now rewrite c_no_digit.
Qed.

Lemma signs_lack :
  Ascii.eqb "-" c = false /\ Ascii.eqb "T" c = false /\
  Ascii.eqb ":" c = false /\ Ascii.eqb "." c = false /\
  Ascii.eqb "0" c = false.
Proof.
  cbn [contains_char] in c_no_sign.
  repeat (apply orb_false_elim in c_no_sign;
          destruct c_no_sign as [? c_no_sign]).
  auto.
Qed.

Lemma isoformat_lacks (d : datetime) : contains_char c (isoformat d) = false.
Proof.
  destruct signs_lack as (H1 & H2 & H3 & H4 & _).
  unfold isoformat.
  destruct (Z.eqb (microsecond d) 0);
    rewrite !contains_char_append, !zpad_lacks; cbn [contains_char orb];
    now rewrite H1, H2, H3, ?H4.
Qed.

Lemma str_int_lacks (n : Z) : contains_char c (str_int n) = false.
Proof.
  destruct signs_lack as (H1 & _ & _ & _ & H0).
  unfold str_int, NilZero.string_of_int, NilZero.string_of_uint.
  destruct (Z.to_int n) as [u|u]; destruct u;
    cbn [contains_char orb]; rewrite ?H1, ?H0; cbn [orb];
    try reflexivity;
    match goal with
    | |- contains_char c (NilEmpty.string_of_uint ?u) = false =>
        apply c_no_decimal
    end.
Qed.

Lemma pick_lacks (table : list (Z * ascii)) (mode : Z) :
  Forall (fun e => Ascii.eqb (snd e) c = false) table ->
  Ascii.eqb (Mode.pick table mode) c = false.
Proof.
  destruct signs_lack as (H1 & _).
  induction 1 as [|[bit ch] table Hc _ IH]; cbn [Mode.pick]; [exact H1|].
  now destruct (Z.eqb _ _).
Qed.

Lemma picks_lack (tables : list (list (Z * ascii))) (mode : Z) :
  Forall (Forall (fun e : Z * ascii => Ascii.eqb (snd e) c = false)) tables ->
  contains_char c
    (string_of_list_ascii (map (fun table => Mode.pick table mode) tables))
  = false.
Proof.
  induction 1 as [|table tables Ht _ IH]; [reflexivity|].
  cbn [map string_of_list_ascii contains_char].
  now rewrite (pick_lacks table mode Ht), IH.
Qed.

Lemma filemode_lacks (mode : Z) : contains_char c (Mode.filemode mode) = false.
Proof. unfold Mode.filemode. apply picks_lack, c_no_mode_letter. Qed.

Lemma join_part_lacks (sep : string) (ps : list string) (x : string) :
  In x ps -> contains_char c (join sep ps) = false ->
  contains_char c x = false.
Proof.
  induction ps as [|y ps IH]; intros Hin H; [contradiction|].
  destruct ps as [|z ps].
  - destruct Hin as [<-|[]]. exact H.
  - cbn [join] in H. rewrite !contains_char_append in H.
    apply orb_false_elim in H. destruct H as [Hy H].
    apply orb_false_elim in H. destruct H as [_ H].
    destruct Hin as [<-|Hin]; [exact Hy | now apply IH].
Qed.

Lemma path_name_lacks (p : Path) :
  contains_char c (path_str p) = false ->
  contains_char c (path_name p) = false.
Proof.
  unfold path_str, path_name. intros H.
  destruct (parts p) as [|x ps] eqn:E; [reflexivity|].
  assert (Hin : In (last (x :: ps) "") (x :: ps)) by (apply last_In; discriminate).
  destruct (absolute p).
  - rewrite contains_char_append in H. apply orb_false_elim in H.
    destruct H as [_ H]. exact (join_part_lacks "/" _ _ Hin H).
  - exact (join_part_lacks "/" _ _ Hin H).
Qed.

(** The nine fields of the record of a path that lacks [c] lack it too,
    when the separator does. *)
Lemma fields_lack {P : Platform} (p : Path) (st : stat_result timestamp)
      (sep : string) :
  contains_char c sep = false ->
  contains_char c (path_str p) = false ->
  contains_char c (join sep (fields (metadata_of p st))) = false.
Proof.
  intros Hsep Hp. pose proof (path_name_lacks p Hp) as Hn.
  unfold fields, metadata_of.
  cbn [modified_time accessed_time created_time file_path file_name
       file_size permissions owner_uid owner_gid join].
  rewrite !contains_char_append, !isoformat_lacks, !str_int_lacks,
    filemode_lacks, Hsep, Hp, Hn.
  reflexivity.
Qed.
End Lacks.

Lemma line_feed_no_digit (n : Z) : Ascii.eqb (digit_char n) line_feed = false.
Proof.
  destruct (digit_char_cases n)
    as [<-|[<-|[<-|[<-|[<-|[<-|[<-|[<-|[<-|[<-|[]]]]]]]]]]]; reflexivity.
Qed.

Lemma line_feed_no_decimal (u : Decimal.uint) :
  contains_char line_feed (NilEmpty.string_of_uint u) = false.
Proof. induction u; cbn; auto. Qed.

Lemma line_feed_no_mode_letter :
  Forall (Forall (fun e : Z * ascii => Ascii.eqb (snd e) line_feed = false))
         Mode.filemode_table.
Proof. unfold Mode.filemode_table. repeat constructor. Qed.

(** X12. One record, one line.  The line written for a path whose text
    holds no line feed is the nine fields joined by commas, without any
    line feed, followed by the single line feed that ends it: split at
    line feeds, the data written for the record is that one line and the
    empty rest. *)
Theorem record_is_one_line {P : Platform}
  (p : Path) (st : stat_result timestamp) :
  contains_char line_feed (path_str p) = false ->
  record_line p st = join "," (fields (metadata_of p st)) ++ newline /\
  contains_char line_feed (join "," (fields (metadata_of p st))) = false /\
  split_on line_feed (record_line p st) =
    [join "," (fields (metadata_of p st)); ""].
Proof.
  intros Hp.
  assert (B : contains_char line_feed (join "," (fields (metadata_of p st)))
              = false).
  { apply fields_lack; auto.
    - apply line_feed_no_digit.
    - apply line_feed_no_decimal.
    - apply line_feed_no_mode_letter. }
  assert (E : record_line p st
              = join "," (fields (metadata_of p st)) ++ newline).
  { unfold record_line. apply output_string_join. }
  split; [exact E|]. split; [exact B|].
  rewrite E. change newline with (String line_feed "").
  now rewrite (split_on_field line_feed _ "" B).
Qed.

Lemma record_is_one_line_witness :
  split_on line_feed
    (record_line (P := Example.utc) Example.a_txt
       (Example.regular 12 1709647629)) =
  ["2024-03-05T14:07:09,2024-03-05T14:07:09,2024-03-05T14:07:09,"
   ++ "data/a.txt,a.txt,12,-rw-r--r--,1000,1000"; ""].
Proof.
  destruct (record_is_one_line (P := Example.utc) Example.a_txt
              (Example.regular 12 1709647629))
    as (_ & _ & H); [reflexivity|].
  rewrite H. reflexivity.
Defined.

(** ** The only failure of a run to standard output *)

Section StdoutFailures.
Context {P : Platform} {W : Type} {os : OS W}.
Implicit Types (s : state W) (p d : Path).





End StdoutFailures.

